(** * extract_pptx.py: slide text extraction, embedded and verified

    The script [scripts/extract_pptx.py] opens a presentation archive,
    keeps the entries that look like slides, sorts them by the number in
    their name, and prints for each a heading, the space-joined contents
    of the [<a:t>] elements, and a blank line.  Any [Exception] raised in
    the body is reduced to one [Error: ...] line.

    Python strings are sequences of Unicode code points, so text is
    [list N] here; archive members hold bytes.  Standard output is the
    list of strings handed to [print], one element per call; [print]
    itself is taken not to fail.  Exceptions are the instances of
    [Exception]; what lies outside that class (an interrupt from the
    keyboard, say) is outside the model.  The [zipfile] module and the
    file system are the environment: an opened archive is its list of
    names and its [read] function, and opening a path either raises or
    gives an archive. *)

From Stdlib Require Import String Ascii.
From Stdlib.Strings Require Import Byte.
From Stdlib Require Import List NArith Arith Bool Lia.
From Stdlib Require Import Permutation Sorted.
From Stdlib Require DecimalString.
From Stdlib Require Import DecimalN.
Import ListNotations.

Set Implicit Arguments.

(** ** Text *)

Definition codepoint := N.
Definition str := list codepoint.
Definition bytes := list byte.

(** A literal of the source, as code points. *)
Definition lit (s : string) : str :=
  map N_of_ascii (list_ascii_of_string s).

(** ASCII bytes of a literal (used to build archive members). *)
Definition blit (s : string) : bytes := list_byte_of_string s.

Fixpoint str_eqb (a b : str) : bool :=
  match a, b with
  | [], [] => true
  | x :: a', y :: b' => N.eqb x y && str_eqb a' b'
  | _, _ => false
  end.

(** [has_prefix p s]: [s] begins with [p]. *)
Fixpoint has_prefix (p s : str) : bool :=
  match p, s with
  | [], _ => true
  | x :: p', y :: s' => N.eqb x y && has_prefix p' s'
  | _ :: _, [] => false
  end.

(** [str.startswith] and [str.endswith]. *)
Definition startswith (s p : str) : bool := has_prefix p s.

Definition endswith (s p : str) : bool :=
  (length p <=? length s) && str_eqb (skipn (length s - length p) s) p.

(** [str.replace(old, new)]: the non-overlapping occurrences of [old],
    found left to right, are replaced by [new].  [skip] counts the
    characters of an occurrence still to be dropped. *)
Fixpoint replace_from (old new : str) (skip : nat) (s : str) : str :=
  match s with
  | [] => []
  | c :: t =>
      match skip with
      | S k => replace_from old new k t
      | O =>
          if has_prefix old s
          then new ++ replace_from old new (length old - 1) t
          else c :: replace_from old new 0 t
      end
  end.

Definition replace (s old new : str) : str :=
  match old with
  | [] => new ++ flat_map (fun c => c :: new) s
  | _ :: _ => replace_from old new 0 s
  end.

(** [sep.join(parts)]. *)
Fixpoint join (sep : str) (parts : list str) : str :=
  match parts with
  | [] => []
  | [p] => p
  | p :: rest => p ++ sep ++ join sep rest
  end.

Fixpoint take_while (p : codepoint -> bool) (s : str) : str :=
  match s with
  | [] => []
  | c :: t => if p c then c :: take_while p t else []
  end.

(** Decimal rendering of a number, as [%d] prints it. *)
Definition decimal (n : N) : str :=
  lit (DecimalString.NilZero.string_of_uint (N.to_uint n)).

Definition hex_digit (n : N) : codepoint :=
  if (n <? 10)%N then (48 + n)%N else (87 + n)%N.

(** [%02x] of a byte. *)
Definition hex2 (b : N) : str := [hex_digit (b / 16); hex_digit (b mod 16)].

(** ** The interpreter's character tables

    Case mapping, the decimal-digit class of [\d] and the digit values
    [int] uses are Unicode data of the interpreter, not of the script.
    They are taken as an interface that fixes the ASCII range only.
    [max_str_digits] is the interpreter's limit on the length of a
    decimal string [int] converts ([None]: no limit). *)
Class Interpreter := {
  to_upper : codepoint -> str;
  is_decimal : codepoint -> bool;
  decimal_value : codepoint -> N;
  max_str_digits : option nat;
  to_upper_ascii : forall c, (c < 128)%N ->
    to_upper c = [if ((97 <=? c) && (c <=? 122))%N then (c - 32)%N else c];
  is_decimal_ascii : forall c, (c < 128)%N ->
    is_decimal c = ((48 <=? c) && (c <=? 57))%N;
  decimal_value_ascii : forall c, (48 <= c <= 57)%N ->
    decimal_value c = (c - 48)%N
}.

(** The tables restricted to ASCII: an interpreter whose other code
    points have no case and are not digits. *)
#[export, refine] Instance ascii_interpreter : Interpreter := {
  to_upper c := [if ((97 <=? c) && (c <=? 122))%N then (c - 32)%N else c];
  is_decimal c := ((48 <=? c) && (c <=? 57))%N;
  decimal_value c := (c - 48)%N;
  max_str_digits := Some 4300
}.
Proof. all: reflexivity. Defined.

(** ** Exceptions

    Instances of [Exception], the class the handler names.  [Raised] is
    an exception coming out of the [zipfile] module or the operating
    system (missing file, not a zip file, bad CRC, unsupported
    compression, ...) with the text [str(e)] gives. *)
Inductive exn :=
| Raised (msg : str)
| AttributeError_group
| ValueError_digits (limit digits : nat)
| UnicodeDecodeError (first_byte : N) (start stop : N) (reason : str).

(** [str(e)], the text the handler prints after [Error: ]. *)
Definition exn_str (e : exn) : str :=
  match e with
  | Raised msg => msg
  | AttributeError_group => lit "'NoneType' object has no attribute 'group'"
  | ValueError_digits limit digits =>
      lit "Exceeds the limit (" ++ decimal (N.of_nat limit)
        ++ lit " digits) for integer string conversion: value has "
        ++ decimal (N.of_nat digits)
        ++ lit " digits; use sys.set_int_max_str_digits() to increase the limit"
  | UnicodeDecodeError b start stop reason =>
      if (stop =? start + 1)%N
      then lit "'utf-8' codec can't decode byte 0x" ++ hex2 b
             ++ lit " in position " ++ decimal start ++ lit ": " ++ reason
      else lit "'utf-8' codec can't decode bytes in position "
             ++ decimal start ++ lit "-" ++ decimal (stop - 1)
             ++ lit ": " ++ reason
  end.

(** ** [bytes.decode('utf-8')]

    The strict decoder: one character per step, rejecting overlong
    forms, surrogates and values above U+10FFFF, and reporting where and
    why it stopped. *)
Inductive utf8_step_result :=
| Char (c : codepoint) (width : nat)
| UnexpectedEnd
| InvalidStart
| InvalidContinuation (k : nat).

Definition is_continuation (b : N) : bool := ((128 <=? b) && (b <=? 191))%N.

Definition utf8_step (s : list N) : utf8_step_result :=
  match s with
  | [] => UnexpectedEnd
  | ch :: r =>
      if (ch <? 128)%N then Char ch 1
      else if (ch <? 224)%N then
        if (ch <? 194)%N then InvalidStart
        else match r with
             | [] => UnexpectedEnd
             | ch2 :: _ =>
                 if is_continuation ch2
                 then Char ((ch - 192) * 64 + (ch2 - 128))%N 2
                 else InvalidContinuation 1
             end
      else if (ch <? 240)%N then
        match r with
        | [] => UnexpectedEnd
        | ch2 :: r2 =>
            if negb (is_continuation ch2)
               || (if (ch2 <? 160)%N then (ch =? 224)%N else (ch =? 237)%N)
            then InvalidContinuation 1
            else match r2 with
                 | [] => UnexpectedEnd
                 | ch3 :: _ =>
                     if is_continuation ch3
                     then Char ((ch - 224) * 4096 + (ch2 - 128) * 64
                                + (ch3 - 128))%N 3
                     else InvalidContinuation 2
                 end
        end
      else if (ch <? 245)%N then
        match r with
        | [] => UnexpectedEnd
        | ch2 :: r2 =>
            if negb (is_continuation ch2)
               || (if (ch2 <? 144)%N then (ch =? 240)%N else (ch =? 244)%N)
            then InvalidContinuation 1
            else match r2 with
                 | [] => UnexpectedEnd
                 | ch3 :: r3 =>
                     if negb (is_continuation ch3) then InvalidContinuation 2
                     else match r3 with
                          | [] => UnexpectedEnd
                          | ch4 :: _ =>
                              if is_continuation ch4
                              then Char ((ch - 240) * 262144
                                         + (ch2 - 128) * 4096
                                         + (ch3 - 128) * 64 + (ch4 - 128))%N 4
                              else InvalidContinuation 3
                          end
                 end
        end
      else InvalidStart
  end.

(** The decoding loop; [pos] is the index of the head of [s] in the
    input.  Every step consumes a byte, so [length s] steps are enough. *)
Fixpoint decode_loop (fuel : nat) (pos : N) (s : list N) : exn + str :=
  match fuel, s with
  | _, [] => inr []
  | O, _ :: _ => inr []
  | S fuel', ch :: _ =>
      match utf8_step s with
      | Char c w =>
          match decode_loop fuel' (pos + N.of_nat w) (skipn w s) with
          | inl e => inl e
          | inr rest => inr (c :: rest)
          end
      | UnexpectedEnd =>
          inl (UnicodeDecodeError ch pos (pos + N.of_nat (length s))
                 (lit "unexpected end of data"))
      | InvalidStart =>
          inl (UnicodeDecodeError ch pos (pos + 1) (lit "invalid start byte"))
      | InvalidContinuation k =>
          inl (UnicodeDecodeError ch pos (pos + N.of_nat k)
                 (lit "invalid continuation byte"))
      end
  end.

Definition decode_utf8 (b : bytes) : exn + str :=
  decode_loop (length b) 0 (map Byte.to_N b).

(** ** The two regular expressions *)

Definition newline : codepoint := 10%N.
Definition slide_word : str := Eval cbv in lit "slide".
Definition open_tag : str := Eval cbv in lit "<a:t>".
Definition close_tag : str := Eval cbv in lit "</a:t>".

Section Regex.
Context {I : Interpreter}.

(** [re.search(r'slide(\d+)', x)]: group 1 of the leftmost match, the
    longest run of digits after the first [slide] that has one. *)
Fixpoint search_slide_digits (x : str) : option str :=
  match x with
  | [] => None
  | _ :: t =>
      if has_prefix slide_word x
      then match take_while is_decimal (skipn 5 x) with
           | [] => search_slide_digits t
           | d :: ds => Some (d :: ds)
           end
      else search_slide_digits t
  end.

(** [int(digits)] on a run of decimal digits. *)
Definition digits_value (ds : str) : N :=
  fold_left (fun acc d => (10 * acc + decimal_value d)%N) ds 0%N.

Definition int (ds : str) : exn + N :=
  match max_str_digits with
  | Some limit =>
      if limit <? length ds
      then inl (ValueError_digits limit (length ds))
      else inr (digits_value ds)
  | None => inr (digits_value ds)
  end.

(** The sort key [lambda x: int(re.search(r'slide(\d+)', x).group(1))]. *)
Definition sort_key (x : str) : exn + N :=
  match search_slide_digits x with
  | None => inl AttributeError_group
  | Some ds => int ds
  end.

End Regex.

(** [(.*?)</a:t>] at the head of [s]: the text up to the first closing
    tag, provided no newline comes before it. *)
Fixpoint lazy_until_close (s : str) : option str :=
  match s with
  | [] => None
  | c :: t =>
      if has_prefix close_tag s then Some []
      else if (c =? newline)%N then None
      else option_map (cons c) (lazy_until_close t)
  end.

(** [<a:t>(.*?)</a:t>] matched at the head of [s]: group 1. *)
Definition match_here (s : str) : option str :=
  if has_prefix open_tag s then lazy_until_close (skipn 5 s) else None.

(** The successive matches of [<a:t>(.*?)</a:t>] in [s], each with the
    index where it starts and its group 1.  After a match the scan
    resumes behind it: [skip] counts its characters still to pass. *)
Fixpoint finditer_from (skip pos : nat) (s : str) : list (nat * str) :=
  match s with
  | [] => []
  | _ :: t =>
      match skip with
      | S k => finditer_from k (S pos) t
      | O =>
          match match_here s with
          | Some g => (pos, g) :: finditer_from (10 + length g) (S pos) t
          | None => finditer_from 0 (S pos) t
          end
      end
  end.

Definition finditer (s : str) : list (nat * str) := finditer_from 0 0 s.

(** [re.findall(r'<a:t>(.*?)</a:t>', content)]. *)
Definition findall (content : str) : list str := map snd (finditer content).

(** ** Printing and exceptions

    A computation yields what it printed and either the exception it
    raised or its value. *)
Definition io (A : Type) : Type := list str * (exn + A).

Definition ret {A} (x : A) : io A := ([], inr x).

Definition bind {A B} (m : io A) (f : A -> io B) : io B :=
  match m with
  | (out, inl e) => (out, inl e)
  | (out, inr x) => let (out', r) := f x in (out ++ out', r)
  end.

Definition print (line : str) : io unit := ([line], inr tt).

(** A call that raises or returns, printing nothing. *)
Definition call {A} (r : exn + A) : io A := ([], r).

(** [try: body / except Exception as e: handler]. *)
Definition try_except {A} (body : io A) (handler : exn -> io A) : io A :=
  match body with
  | (out, inl e) => let (out', r) := handler e in (out ++ out', r)
  | (out, inr x) => (out, inr x)
  end.

Declare Scope io_scope.
Delimit Scope io_scope with io.
Notation "x <- m ;; k" := (bind m (fun x => k))
  (at level 61, m at next level, right associativity) : io_scope.
Notation "m ;; k" := (bind m (fun _ => k))
  (at level 61, right associativity) : io_scope.

Fixpoint for_each {A} (l : list A) (body : A -> io unit) : io unit :=
  match l with
  | [] => ret tt
  | x :: rest => bind (body x) (fun _ => for_each rest body)
  end.

(** ** Archives *)

(** An opened [zipfile.ZipFile]: the member names in the order of the
    archive's directory, and what [read] gives for a name. *)
Record ZipFile := {
  namelist : list str;
  read : str -> exn + bytes
}.

(** What [zipfile.ZipFile(path, 'r')] gives for each path. *)
Definition filesystem := str -> exn + ZipFile.

(** ** The extractor *)

Definition slide_prefix : str := Eval cbv in lit "ppt/slides/slide".
Definition xml_suffix : str := Eval cbv in lit ".xml".
Definition PPT_SLIDES : str := Eval cbv in lit "PPT/SLIDES/".
Definition DOT_XML : str := Eval cbv in lit ".XML".
Definition space : str := Eval cbv in lit " ".
Definition dashes_left : str := Eval cbv in lit "--- ".
Definition dashes_right : str := Eval cbv in lit " ---".
Definition error_prefix : str := Eval cbv in lit "Error: ".

(** The filter of the list comprehension. *)
Definition is_slide_file (f : str) : bool :=
  startswith f slide_prefix && endswith f xml_suffix.

(** [list.sort(key=...)]: the keys are computed first, in list order,
    then the list is sorted on them, equal keys keeping their order. *)
Fixpoint insert_by_key (p : N * str) (l : list (N * str)) : list (N * str) :=
  match l with
  | [] => [p]
  | q :: r =>
      if (fst p <=? fst q)%N then p :: q :: r else q :: insert_by_key p r
  end.

Definition sort_pairs (l : list (N * str)) : list (N * str) :=
  fold_right insert_by_key [] l.

Section Extractor.
Context {I : Interpreter}.

Definition upper (s : str) : str := flat_map to_upper s.

Fixpoint with_keys (l : list str) : exn + list (N * str) :=
  match l with
  | [] => inr []
  | x :: rest =>
      match sort_key x with
      | inl e => inl e
      | inr k =>
          match with_keys rest with
          | inl e => inl e
          | inr krest => inr ((k, x) :: krest)
          end
      end
  end.

Definition sort_by_number (l : list str) : exn + list str :=
  match with_keys l with
  | inl e => inl e
  | inr kl => inr (map snd (sort_pairs kl))
  end.

(** [slide_file.upper().replace('PPT/SLIDES/', '').replace('.XML', '')]. *)
Definition label (slide_file : str) : str :=
  replace (replace (upper slide_file) PPT_SLIDES []) DOT_XML [].

Definition heading (slide_file : str) : str :=
  dashes_left ++ label slide_file ++ dashes_right.

Definition content_line (content : str) : str := join space (findall content).

Local Open Scope io_scope.

(** The body of the [for] loop. *)
Definition print_slide (zip_ref : ZipFile) (slide_file : str) : io unit :=
  print (heading slide_file) ;;
  raw <- call (read zip_ref slide_file) ;;
  content <- call (decode_utf8 raw) ;;
  print (content_line content) ;;
  print [].

Definition slide_files (zip_ref : ZipFile) : list str :=
  filter is_slide_file (namelist zip_ref).

(** The body of the [with] statement. *)
Definition print_slides (zip_ref : ZipFile) : io unit :=
  sorted <- call (sort_by_number (slide_files zip_ref)) ;;
  for_each sorted (print_slide zip_ref).

Definition extract_text_from_pptx (fs : filesystem) (pptx_path : str)
  : io unit :=
  try_except
    (zip_ref <- call (fs pptx_path) ;; print_slides zip_ref)
    (fun e => print (error_prefix ++ exn_str e)).

(** The script run as a program, [argv] being [sys.argv]. *)
Definition usage : str :=
  Eval cbv in lit "Usage: python3 extract_pptx.py <path_to_pptx>".

Definition main (fs : filesystem) (argv : list str) : io unit :=
  match argv with
  | _ :: pptx_path :: _ => extract_text_from_pptx fs pptx_path
  | _ => print usage
  end.

(** What a run leaves on standard output. *)
Definition stdout (fs : filesystem) (pptx_path : str) : list str :=
  fst (extract_text_from_pptx fs pptx_path).

End Extractor.

(** The text of the output stream: every printed string and its newline. *)
Definition stream (out : list str) : str :=
  flat_map (fun line => line ++ [newline]) out.

(** ** Notions the properties are stated with *)

(** [str.find(sub)]: the index of the first occurrence of [sub]. *)
Fixpoint find (sub s : str) : option nat :=
  if has_prefix sub s then Some 0
  else match s with
       | [] => None
       | _ :: t => option_map S (find sub t)
       end.

(** [str.removeprefix] and [str.removesuffix]. *)
Definition removeprefix (s p : str) : str :=
  if startswith s p then skipn (length p) s else s.

Definition removesuffix (s p : str) : str :=
  if endswith s p then firstn (length s - length p) s else s.

(** The label as the specification words it: the uppercased name
    without the slide-storage prefix and without the XML suffix. *)
Definition label_spec {I : Interpreter} (slide_file : str) : str :=
  removesuffix (removeprefix (upper slide_file) PPT_SLIDES) DOT_XML.

(** The number a name sorts by, when it has one. *)
Definition has_ordinal {I : Interpreter} (f : str) (k : N) : Prop :=
  sort_key f = inr k.

(** The member can be read and its bytes are UTF-8 for [content]. *)
Definition decodes_to (z : ZipFile) (f : str) (content : str) : Prop :=
  exists raw, read z f = inr raw /\ decode_utf8 raw = inr content.

Definition readable (z : ZipFile) (f : str) : Prop :=
  exists content, decodes_to z f content.

(** Reading or decoding the member raises [e]. *)
Definition unreadable (z : ZipFile) (f : str) (e : exn) : Prop :=
  read z f = inl e \/
  exists raw, read z f = inr raw /\ decode_utf8 raw = inl e.

(** What the loop body prints for a slide that is read and decoded. *)
Definition block {I : Interpreter} (f content : str) : list str :=
  [heading f; content_line content; []].

(** What the loop body prints for a slide, whatever happens. *)
Definition slide_output {I : Interpreter} (z : ZipFile) (f : str)
  : list str :=
  fst (print_slide z f).

(** The number a name sorts by, 0 when it has none. *)
Definition ordinal {I : Interpreter} (f : str) : N :=
  match sort_key f with inr k => k | inl _ => 0%N end.

Definition keyed {I : Interpreter} (f : str) : N * str := (ordinal f, f).

Definition key_le (a b : N * str) : Prop := (fst a <= fst b)%N.

(** A run in which opening the archive, or reading or decoding a slide,
    raises [e], with what the run has printed by then. *)
Inductive run_raises {I : Interpreter} (fs : filesystem) (path : str)
  : list str -> exn -> Prop :=
| raises_on_open e :
    fs path = inl e ->
    run_raises fs path [] e
| raises_on_slide z done contents f todo e :
    fs path = inr z ->
    sort_by_number (slide_files z) = inr (done ++ f :: todo) ->
    Forall2 (decodes_to z) done contents ->
    unreadable z f e ->
    run_raises fs path
      (concat (map (fun dc => block (fst dc) (snd dc)) (combine done contents))
         ++ [heading f]) e.

(** Two openings show the same archive: the same exception, or the
    same names in the same order and the same result of [read] for
    every slide entry. *)
Definition same_archive (r r' : exn + ZipFile) : Prop :=
  match r, r' with
  | inl e, inl e' => e = e'
  | inr z, inr z' =>
      namelist z = namelist z' /\
      forall f, In f (slide_files z) -> read z f = read z' f
  | _, _ => False
  end.

(** An occurrence of the tag pair at index [p] of [s] with content [g]:
    the opening tag stands at [p], [g] follows without a newline, and
    the closing tag behind [g] is the first one after the opening tag. *)
Definition occurrence (s : str) (p : nat) (g : str) : Prop :=
  exists l r,
    s = l ++ open_tag ++ g ++ close_tag ++ r /\
    length l = p /\
    ~ In newline g /\
    forall k, k < length g ->
      has_prefix close_tag (skipn k (g ++ close_tag ++ r)) = false.

(** The index behind a match that starts at [p] with group [g]. *)
Definition span_end (m : nat * str) : nat := fst m + 11 + length (snd m).

(** The name of slide [n], its number written with [zeros] zeros in
    front: [ppt/slides/slide007.xml] is [slide_name 2 7]. *)
Definition slide_name (zeros : nat) (n : N) : str :=
  slide_prefix ++ (repeat 48%N zeros ++ decimal n) ++ xml_suffix.

(** A slide content written out: each text, wrapped in the tag pair,
    behind the markup that precedes it, and [tail] at the end. *)
Fixpoint render (items : list (str * str)) (tail : str) : str :=
  match items with
  | [] => tail
  | (markup, text) :: rest =>
      markup ++ open_tag ++ text ++ close_tag ++ render rest tail
  end.

(** The blocks of a list of slides with their contents. *)
Definition blocks {I : Interpreter} (fs contents : list str) : list str :=
  concat (map (fun dc => block (fst dc) (snd dc)) (combine fs contents)).

(** ** Sample archives *)

Definition quote : codepoint := 34%N.

Definition member (name : string) (data : string) : str * (exn + bytes) :=
  (lit name, inr (blit data)).

(** The member of a name: a later one hides an earlier one. *)
Fixpoint lookup (ms : list (str * (exn + bytes))) (name : str)
  : option (exn + bytes) :=
  match ms with
  | [] => None
  | (n, d) :: rest =>
      match lookup rest name with
      | Some r => Some r
      | None => if str_eqb n name then Some d else None
      end
  end.

(** An archive from its members; a name it lacks raises [KeyError]. *)
Definition archive (ms : list (str * (exn + bytes))) : ZipFile :=
  {| namelist := map fst ms;
     read := fun name =>
       match lookup ms name with
       | Some r => r
       | None =>
           inl (Raised ([quote] ++ lit "There is no item named '" ++ name
                          ++ lit "' in the archive" ++ [quote]))
       end |}.

Definition deck_path : str := Eval cbv in lit "deck.pptx".

(** A file system holding one archive, at [deck.pptx]. *)
Definition only (z : ZipFile) : filesystem :=
  fun path =>
    if str_eqb path deck_path then inr z
    else inl (Raised (lit "[Errno 2] No such file or directory: '"
                        ++ path ++ lit "'")).

Definition deck312 : ZipFile := archive
  [ member "ppt/slides/slide3.xml" "<a:t>three</a:t>";
    member "ppt/slides/slide1.xml"
      "<a:p><a:t>Hello</a:t><a:t></a:t><a:t>World</a:t></a:p>";
    member "[Content_Types].xml" "<Types/>";
    member "ppt/slides/slide2.xml" "<a:p/>" ].


(** The members of [deck312] with other contents outside the slides. *)
Definition deck312_repacked : ZipFile := archive
  [ member "ppt/slides/slide3.xml" "<a:t>three</a:t>";
    member "ppt/slides/slide1.xml"
      "<a:p><a:t>Hello</a:t><a:t></a:t><a:t>World</a:t></a:p>";
    member "[Content_Types].xml" "<Types><Default/></Types>";
    member "ppt/slides/slide2.xml" "<a:p/>" ].

(** The slides of [deck312] among other entries. *)
Definition deck312_extra : ZipFile := archive
  [ member "docProps/app.xml" "<Properties/>";
    member "ppt/slides/slide3.xml" "<a:t>three</a:t>";
    member "ppt/notesSlides/notesSlide1.xml" "<a:t>a note</a:t>";
    member "ppt/slides/slide1.xml"
      "<a:p><a:t>Hello</a:t><a:t></a:t><a:t>World</a:t></a:p>";
    member "ppt/slides/_rels/slide1.xml.rels" "<Relationships/>";
    member "ppt/slides/slide2.xml" "<a:p/>" ].

(** A slide-like name without a number. *)
Definition deck_unnumbered : ZipFile := archive
  [ member "ppt/slides/slide1.xml" "<a:t>one</a:t>";
    member "ppt/slides/slide.xml" "<a:t>none</a:t>" ].

(** An archive without slides. *)
Definition deck_empty : ZipFile := archive
  [ member "[Content_Types].xml" "<Types/>";
    member "ppt/slideMasters/slideMaster1.xml" "<a:t>master</a:t>" ].

(** The second slide is not UTF-8. *)
Definition deck_latin1 : ZipFile := archive
  [ member "ppt/slides/slide1.xml" "<a:t>one</a:t>";
    (lit "ppt/slides/slide2.xml", inr [x3c; xe9; x3e]);
    member "ppt/slides/slide3.xml" "<a:t>three</a:t>" ].

(** ** Basic facts *)

Example deck312_stdout :
  stdout (only deck312) deck_path =
  [ lit "--- SLIDE1 ---"; lit "Hello  World"; [];
    lit "--- SLIDE2 ---"; []; [];
    lit "--- SLIDE3 ---"; lit "three"; [] ].
Proof. vm_compute. reflexivity. Qed.

Example deck_latin1_stdout :
  stdout (only deck_latin1) deck_path =
  [ lit "--- SLIDE1 ---"; lit "one"; [];
    lit "--- SLIDE2 ---";
    lit "Error: 'utf-8' codec can't decode byte 0xe9 in position 1: invalid continuation byte" ].
Proof. vm_compute. reflexivity. Qed.

Lemma has_prefix_app (p r : str) : has_prefix p (p ++ r) = true.
Proof.
  induction p as [|x p IH]; simpl; [reflexivity|].
  now rewrite N.eqb_refl.
Qed.

Lemma has_prefix_split (p s : str) :
  has_prefix p s = true -> s = p ++ skipn (length p) s.
Proof.
  revert s; induction p as [|x p IH]; intros [|y s] H; simpl in *;
    try reflexivity; try discriminate.
  apply andb_true_iff in H as [Hxy Hp].
  apply N.eqb_eq in Hxy; subst y.
  f_equal; now apply IH.
Qed.

Lemma has_prefix_iff (p s : str) :
  has_prefix p s = true <-> exists r, s = p ++ r.
Proof.
  split.
  - intros H; eexists; now apply has_prefix_split.
  - intros [r ->]; apply has_prefix_app.
Qed.

Lemma str_eqb_eq (a b : str) : str_eqb a b = true <-> a = b.
Proof.
  revert b; induction a as [|x a IH]; intros [|y b]; simpl;
    try (split; [reflexivity || discriminate | reflexivity || discriminate]).
  rewrite andb_true_iff, N.eqb_eq, IH.
  split; [intros [-> ->]; reflexivity | intros [= -> ->]; auto].
Qed.

(** ** The decoder *)

Lemma utf8_step_width (s : list N) (c : codepoint) (w : nat) :
  utf8_step s = Char c w -> 1 <= w.
Proof.
  unfold utf8_step.
  repeat match goal with
         | |- context [match ?l with [] => _ | _ :: _ => _ end] => destruct l
         | |- context [if ?b then _ else _] => destruct b
         end;
    intros H; try discriminate H; injection H as _ <-; lia.
Qed.

(** The loop never stops for want of steps: any budget of at least the
    length of the input gives the same result. *)
Lemma decode_loop_enough (fuel : nat) : forall fuel' pos s,
  length s <= fuel -> length s <= fuel' ->
  decode_loop fuel pos s = decode_loop fuel' pos s.
Proof.
  induction fuel as [|fuel IH]; intros fuel' pos s Hf Hf'.
  - destruct s; [|simpl in Hf; lia]. now destruct fuel'.
  - destruct s as [|ch r]; [now destruct fuel'|].
    destruct fuel' as [|fuel']; [simpl in Hf'; lia|].
    cbn [decode_loop].
    destruct (utf8_step (ch :: r)) as [c w| | |k] eqn:E; try reflexivity.
    apply utf8_step_width in E.
    assert (length (skipn w (ch :: r)) <= length r) as Hlen.
    { rewrite length_skipn. cbn [length]. lia. }
    simpl in Hf, Hf'.
    rewrite (IH fuel'); [reflexivity | lia | lia].
Qed.

(** ASCII bytes decode to themselves. *)
Lemma decode_loop_ascii (s : list N) : forall fuel pos,
  length s <= fuel -> Forall (fun b => (b < 128)%N) s ->
  decode_loop fuel pos s = inr s.
Proof.
  induction s as [|ch r IH]; intros fuel pos Hf Hs; [now destruct fuel|].
  destruct fuel as [|fuel]; [simpl in Hf; lia|].
  inversion Hs as [|? ? Hch Hr]; subst.
  cbn [decode_loop utf8_step].
  apply N.ltb_lt in Hch. rewrite Hch. cbn [skipn].
  rewrite IH; [reflexivity | simpl in Hf; lia | exact Hr].
Qed.

Lemma decode_utf8_ascii (b : bytes) :
  Forall (fun x => (Byte.to_N x < 128)%N) b ->
  decode_utf8 b = inr (map Byte.to_N b).
Proof.
  intros H. unfold decode_utf8. apply decode_loop_ascii.
  - now rewrite length_map.
  - now apply Forall_map.
Qed.

Example decode_two_three_four_bytes :
  decode_utf8 [xc3; xa9; xe2; x82; xac; xf0; x9f; x98; x80]
  = inr [233; 8364; 128512]%N.
Proof. reflexivity. Qed.

Example decode_rejects_overlong :
  decode_utf8 [x41; xc0; x80]
  = inl (UnicodeDecodeError 192 1 2 (lit "invalid start byte")).
Proof. reflexivity. Qed.

Example decode_rejects_surrogate :
  decode_utf8 [xed; xa0; x80]
  = inl (UnicodeDecodeError 237 0 1 (lit "invalid continuation byte")).
Proof. reflexivity. Qed.

Example decode_rejects_truncated :
  option_map exn_str
    (match decode_utf8 [x61; xe2; x82] with inl e => Some e | inr _ => None end)
  = Some (lit "'utf-8' codec can't decode bytes in position 1-2: unexpected end of data").
Proof. reflexivity. Qed.

Example decode_single_lead_byte :
  option_map exn_str
    (match decode_utf8 [xc3] with inl e => Some e | inr _ => None end)
  = Some (lit "'utf-8' codec can't decode byte 0xc3 in position 0: unexpected end of data").
Proof. reflexivity. Qed.

Example int_limit_message :
  exn_str (ValueError_digits 4300 5000)
  = lit "Exceeds the limit (4300 digits) for integer string conversion: value has 5000 digits; use sys.set_int_max_str_digits() to increase the limit".
Proof. reflexivity. Qed.

Example main_without_argument :
  main (only deck312) [lit "extract_pptx.py"] = ([usage], inr tt).
Proof. reflexivity. Qed.

(** ** Running the loop *)

Lemma for_each_app {A} (body : A -> io unit) (done todo : list A) :
  Forall (fun x => snd (body x) = inr tt) done ->
  for_each (done ++ todo) body =
  (flat_map (fun x => fst (body x)) done ++ fst (for_each todo body),
   snd (for_each todo body)).
Proof.
  induction 1 as [|x done Hx _ IH]; simpl.
  - now destruct (for_each todo body).
  - destruct (body x) as [out [e|[]]] eqn:E; simpl in *; [discriminate|].
    rewrite IH; simpl. now rewrite app_assoc.
Qed.

Lemma for_each_ok {A} (body : A -> io unit) (l : list A) :
  Forall (fun x => snd (body x) = inr tt) l ->
  for_each l body = (flat_map (fun x => fst (body x)) l, inr tt).
Proof.
  intros H. rewrite <- (app_nil_r l) at 1.
  rewrite for_each_app by assumption. simpl. now rewrite app_nil_r.
Qed.

Lemma for_each_stops {A} (body : A -> io unit) (x : A) (todo : list A) e :
  snd (body x) = inl e ->
  for_each (x :: todo) body = (fst (body x), inl e).
Proof.
  simpl. destruct (body x) as [out [e'|[]]]; simpl; intros [= ->]; reflexivity.
Qed.

(** The loop prints the outputs of the first slides, in list order. *)
Lemma for_each_prefix {A} (body : A -> io unit) (l : list A) :
  exists n, fst (for_each l body) = flat_map (fun x => fst (body x)) (firstn n l).
Proof.
  induction l as [|x l [n IH]]; [exists 0; reflexivity|].
  simpl. destruct (body x) as [out [e|[]]] eqn:E.
  - exists 1. simpl. rewrite E. simpl. now rewrite app_nil_r.
  - exists (S n). simpl. rewrite E. simpl.
    destruct (for_each l body); simpl in *. now rewrite IH.
Qed.

Section LoopBody.
Context {I : Interpreter}.

Lemma print_slide_ok (z : ZipFile) (f content : str) :
  decodes_to z f content ->
  print_slide z f = (block f content, inr tt).
Proof.
  intros (raw & Hr & Hd). unfold print_slide, call, bind, print.
  rewrite Hr, Hd. reflexivity.
Qed.

Lemma print_slide_raises (z : ZipFile) (f : str) (e : exn) :
  unreadable z f e ->
  print_slide z f = ([heading f], inl e).
Proof.
  intros [Hr | (raw & Hr & Hd)]; unfold print_slide, call, bind, print;
    rewrite Hr; [|rewrite Hd]; reflexivity.
Qed.

Lemma readable_or_not (z : ZipFile) (f : str) :
  readable z f \/ exists e, unreadable z f e.
Proof.
  unfold readable, decodes_to, unreadable.
  destruct (read z f) as [e|raw] eqn:Hr; [right; eauto|].
  destruct (decode_utf8 raw) as [e|content] eqn:Hd.
  - right; exists e; right; eauto.
  - left; eauto.
Qed.

Lemma slide_output_heading (z : ZipFile) (f : str) :
  exists rest, slide_output z f = heading f :: rest.
Proof.
  unfold slide_output.
  destruct (readable_or_not z f) as [[c H] | [e H]].
  - rewrite (print_slide_ok H). eexists; reflexivity.
  - rewrite (print_slide_raises H). eexists; reflexivity.
Qed.

End LoopBody.

(** ** Sorting on the keys *)

Lemma insert_by_key_perm p l : Permutation (insert_by_key p l) (p :: l).
Proof.
  induction l as [|q l IH]; simpl; [reflexivity|].
  destruct (fst p <=? fst q)%N; [reflexivity|].
  rewrite IH. apply perm_swap.
Qed.

Lemma sort_pairs_perm l : Permutation (sort_pairs l) l.
Proof.
  induction l as [|p l IH]; simpl; [reflexivity|].
  rewrite insert_by_key_perm. now constructor.
Qed.

Lemma insert_by_key_sorted p l :
  StronglySorted key_le l -> StronglySorted key_le (insert_by_key p l).
Proof.
  induction 1 as [|q l Hs IH Hq]; simpl; [repeat constructor|].
  destruct (fst p <=? fst q)%N eqn:E.
  - apply N.leb_le in E. constructor; [now constructor|].
    constructor; [exact E|].
    eapply Forall_impl; [|exact Hq]. unfold key_le; intros; lia.
  - apply N.leb_gt in E. constructor; [exact IH|].
    eapply Permutation_Forall; [symmetry; apply insert_by_key_perm|].
    constructor; [unfold key_le; lia | exact Hq].
Qed.

Lemma sort_pairs_sorted l : StronglySorted key_le (sort_pairs l).
Proof.
  induction l; simpl; [constructor | now apply insert_by_key_sorted].
Qed.

(** Equal keys keep the order they had: the sort is stable. *)
Lemma insert_by_key_filter p l k :
  filter (fun q => (fst q =? k)%N) (insert_by_key p l) =
  filter (fun q => (fst q =? k)%N) (p :: l).
Proof.
  induction l as [|q l IH]; [reflexivity|].
  simpl insert_by_key. destruct (fst p <=? fst q)%N eqn:E; [reflexivity|].
  apply N.leb_gt in E.
  simpl in *. rewrite IH.
  destruct (fst q =? k)%N eqn:Eq, (fst p =? k)%N eqn:Ep; try reflexivity.
  apply N.eqb_eq in Eq, Ep. lia.
Qed.

Lemma sort_pairs_stable l k :
  filter (fun q => (fst q =? k)%N) (sort_pairs l) =
  filter (fun q => (fst q =? k)%N) l.
Proof.
  induction l as [|p l IH]; [reflexivity|].
  simpl sort_pairs. rewrite insert_by_key_filter. simpl. now rewrite IH.
Qed.






Section Keys.
Context {I : Interpreter}.

Lemma with_keys_ok l :
  Forall (fun f => exists k, has_ordinal f k) l ->
  with_keys l = inr (map keyed l).
Proof.
  induction 1 as [|f l [k Hk] _ IH]; simpl; [reflexivity|].
  unfold has_ordinal in Hk. unfold keyed at 1, ordinal.
  rewrite Hk, IH. reflexivity.
Qed.

Lemma with_keys_inv l kl :
  with_keys l = inr kl ->
  Forall (fun f => exists k, has_ordinal f k) l /\ kl = map keyed l.
Proof.
  revert kl; induction l as [|f l IH]; simpl; intros kl H.
  - injection H as <-. split; constructor.
  - destruct (sort_key f) as [e|k] eqn:Hk; [discriminate|].
    destruct (with_keys l) as [e|kr]; [discriminate|].
    injection H as <-. destruct (IH _ eq_refl) as [Hall ->].
    split; [constructor; [now exists k | exact Hall]|].
    unfold keyed at 2, ordinal. now rewrite Hk.
Qed.

(** The first name whose key raises decides the exception. *)
Lemma with_keys_raises l :
  (exists f, In f l /\ forall k, ~ has_ordinal f k) ->
  exists e, with_keys l = inl e.
Proof.
  intros (f & Hin & Hf). induction l as [|x l IH]; [contradiction|].
  simpl. destruct (sort_key x) as [e|k] eqn:Hk; [eauto|].
  destruct Hin as [->|Hin]; [exfalso; now apply (Hf k)|].
  destruct (IH Hin) as [e ->]. eauto.
Qed.

Lemma map_snd_keyed l : map snd (map keyed l) = l.
Proof. rewrite map_map. simpl. apply map_id. Qed.

Lemma map_fst_keyed l : map fst (map keyed l) = map ordinal l.
Proof. rewrite map_map. reflexivity. Qed.

End Keys.

Lemma for_each_ext_in {A} (body body' : A -> io unit) (l : list A) :
  (forall x, In x l -> body x = body' x) ->
  for_each l body = for_each l body'.
Proof.
  induction l as [|x l IH]; intros H; [reflexivity|].
  simpl. rewrite (H x (or_introl eq_refl)).
  destruct (body' x) as [out [e|[]]]; simpl; [reflexivity|].
  rewrite IH; [reflexivity|]. intros y Hy. apply H. now right.
Qed.


Lemma sorted_le_map_fst (kl : list (N * str)) :
  StronglySorted key_le kl -> StronglySorted N.le (map fst kl).
Proof.
  induction 1 as [|p kl _ IH Hp]; simpl; constructor; [exact IH|].
  apply Forall_map. exact Hp.
Qed.

Section SortByNumber.
Context {I : Interpreter}.

Lemma keyed_pairs (kl : list (N * str)) :
  Forall (fun p => p = keyed (snd p)) kl -> kl = map keyed (map snd kl).
Proof.
  induction 1 as [|p kl Hp _ IH]; simpl; [reflexivity|].
  now rewrite <- Hp, <- IH.
Qed.

Lemma sort_pairs_keyed l :
  sort_pairs (map keyed l) = map keyed (map snd (sort_pairs (map keyed l))).
Proof.
  apply keyed_pairs.
  eapply Permutation_Forall; [symmetry; apply sort_pairs_perm|].
  apply Forall_map. apply Forall_forall. reflexivity.
Qed.

(** When every key is there, the sort returns a permutation in
    ascending order of the keys. *)
Lemma sort_by_number_sorted l sorted :
  sort_by_number l = inr sorted ->
  Permutation sorted l /\ StronglySorted N.le (map ordinal sorted).
Proof.
  unfold sort_by_number. destruct (with_keys l) as [e|kl] eqn:Hk; [discriminate|].
  intros [= <-]. apply with_keys_inv in Hk as [_ ->].
  split.
  - rewrite <- (map_snd_keyed l) at 2.
    apply Permutation_map, sort_pairs_perm.
  - rewrite <- map_fst_keyed, <- sort_pairs_keyed.
    apply sorted_le_map_fst, sort_pairs_sorted.
Qed.


Lemma sort_by_number_ok l :
  Forall (fun f => exists k, has_ordinal f k) l ->
  sort_by_number l = inr (map snd (sort_pairs (map keyed l))).
Proof.
  intros H. unfold sort_by_number. now rewrite with_keys_ok.
Qed.


Lemma print_slide_read (z z' : ZipFile) (f : str) :
  read z f = read z' f -> print_slide z f = print_slide z' f.
Proof. intros H. unfold print_slide. now rewrite H. Qed.

(** The body of the [with] statement looks at the names of the archive
    and at the members that are slides, nothing else. *)
Lemma print_slides_ext (z z' : ZipFile) :
  sort_by_number (slide_files z') = sort_by_number (slide_files z) ->
  (forall f, In f (slide_files z) -> read z f = read z' f) ->
  print_slides z' = print_slides z.
Proof.
  intros Hs Hr. unfold print_slides. rewrite Hs.
  destruct (sort_by_number (slide_files z)) as [e|sorted] eqn:E; [reflexivity|].
  unfold call, bind.
  rewrite (@for_each_ext_in _ (print_slide z') (print_slide z)); [reflexivity|].
  intros f Hf. symmetry. apply print_slide_read, Hr.
  apply sort_by_number_sorted in E as [HP _].
  eapply Permutation_in; eassumption.
Qed.

Lemma extract_opened (fs : filesystem) (path : str) (z : ZipFile) :
  fs path = inr z ->
  extract_text_from_pptx fs path =
  try_except (print_slides z) (fun e => print (error_prefix ++ exn_str e)).
Proof.
  intros H. unfold extract_text_from_pptx, call, bind. rewrite H.
  now destruct (print_slides z).
Qed.

Lemma extract_not_opened (fs : filesystem) (path : str) (e : exn) :
  fs path = inl e ->
  extract_text_from_pptx fs path = ([error_prefix ++ exn_str e], inr tt).
Proof.
  intros H. unfold extract_text_from_pptx, call, bind. rewrite H. reflexivity.
Qed.

(** The handler catches what the body raises: with [print] taken not
    to fail, the function returns. *)
Lemma extract_returns (fs : filesystem) (path : str) :
  snd (extract_text_from_pptx fs path) = inr tt.
Proof.
  unfold extract_text_from_pptx, try_except.
  destruct (bind _ _) as [out [e|[]]]; reflexivity.
Qed.

End SortByNumber.

(** ** Failures *)

Section Failures.
Context {I : Interpreter}.

Lemma blocks_of_done (z : ZipFile) (done : list str) (contents : list str) :
  Forall2 (decodes_to z) done contents ->
  Forall (fun d => snd (print_slide z d) = inr tt) done /\
  flat_map (fun d => fst (print_slide z d)) done =
  concat (map (fun dc => block (fst dc) (snd dc)) (combine done contents)).
Proof.
  induction 1 as [|d c done contents Hd _ [IH1 IH2]]; simpl.
  - split; [constructor | reflexivity].
  - split.
    + constructor; [now rewrite (print_slide_ok Hd) | exact IH1].
    + rewrite (print_slide_ok Hd). simpl. now rewrite <- IH2.
Qed.

Lemma sort_key_raises (f : str) (e : exn) :
  sort_key f = inl e ->
  e = AttributeError_group \/
  exists limit n, max_str_digits = Some limit /\ limit < n /\
                  e = ValueError_digits limit n.
Proof.
  unfold sort_key, int.
  destruct (search_slide_digits f) as [ds|]; [|intros [= <-]; now left].
  destruct max_str_digits as [limit|]; [|discriminate].
  destruct (limit <? length ds) eqn:E; [|discriminate].
  intros [= <-]. right. exists limit, (length ds).
  apply Nat.ltb_lt in E. auto.
Qed.

Lemma with_keys_raises_kind (l : list str) (e : exn) :
  with_keys l = inl e -> exists f, In f l /\ sort_key f = inl e.
Proof.
  induction l as [|x l IH]; simpl; [discriminate|].
  destruct (sort_key x) as [e'|k] eqn:Hk.
  - intros [= ->]. exists x. auto.
  - destruct (with_keys l) as [e'|kl]; [|discriminate].
    intros [= ->]. destruct (IH eq_refl) as (f & Hf & He). exists f. auto.
Qed.

End Failures.

(** C2 (as amended). When some entry passes the slide filter and its
    name has no [slide<digits>], the failure of the sort key is caught
    by the handler: the run prints one line, [Error: <details>], and
    nothing else, and returns.  The exception is that of the first
    slide name whose key raises. *)
Theorem malformed_name_is_reported {I : Interpreter}
    (fs : filesystem) (path : str) (z : ZipFile) (f : str) :
  fs path = inr z ->
  In f (slide_files z) ->
  search_slide_digits f = None ->
  exists e,
    extract_text_from_pptx fs path = ([error_prefix ++ exn_str e], inr tt) /\
    (e = AttributeError_group \/
     exists limit n, max_str_digits = Some limit /\ limit < n /\
                     e = ValueError_digits limit n).
Proof.
  intros Hz Hin Hnone.
  destruct (@with_keys_raises _ (slide_files z)) as [e He].
  { exists f. split; [exact Hin|]. intros k Hk.
    unfold has_ordinal, sort_key in Hk. rewrite Hnone in Hk. discriminate. }
  exists e. split.
  - rewrite (extract_opened _ _ Hz).
    unfold print_slides, sort_by_number. rewrite He. reflexivity.
  - apply with_keys_raises_kind in He as (g & _ & Hg).
    now apply sort_key_raises in Hg.
Qed.

Lemma malformed_name_is_reported_witness :
  exists e,
    extract_text_from_pptx (only deck_unnumbered) deck_path =
      ([error_prefix ++ exn_str e], inr tt) /\
    (e = AttributeError_group \/
     exists limit n, max_str_digits = Some limit /\ limit < n /\
                     e = ValueError_digits limit n).
Proof.
  apply (@malformed_name_is_reported ascii_interpreter
           (only deck_unnumbered) deck_path deck_unnumbered
           (lit "ppt/slides/slide.xml")).
  - reflexivity.
  - vm_compute. auto.
  - reflexivity.
Defined.

(** C2 as stated fails: an archive with the entry [ppt/slides/slide.xml]
    makes the sort key raise, and the run prints the error line and
    returns instead of letting the exception out. *)
Lemma malformed_name_is_caught :
  In (lit "ppt/slides/slide.xml") (slide_files deck_unnumbered) /\
  search_slide_digits (lit "ppt/slides/slide.xml") = None /\
  sort_key (lit "ppt/slides/slide.xml") = inl AttributeError_group /\
  extract_text_from_pptx (only deck_unnumbered) deck_path =
    ([lit "Error: 'NoneType' object has no attribute 'group'"], inr tt).
Proof.
  repeat split; try reflexivity. vm_compute. auto.
Qed.

(** C3. When opening the archive raises, or reading or decoding a slide
    raises after the slides before it went through, the run prints what
    it had printed by then (the blocks of the slides before, and the
    heading of the failing slide), then the one line [Error: <details>],
    and returns: nothing of the remaining slides is printed. *)
Theorem failure_prints_one_diagnostic {I : Interpreter}
    (fs : filesystem) (path : str) (before : list str) (e : exn) :
  run_raises fs path before e ->
  extract_text_from_pptx fs path =
    (before ++ [error_prefix ++ exn_str e], inr tt).
Proof.
  intros [e' Hopen | z done contents f todo e' Hz Hsort Hdone Hf].
  - now apply extract_not_opened.
  - rewrite (extract_opened _ _ Hz).
    unfold print_slides. rewrite Hsort. unfold call, bind at 1.
    destruct (blocks_of_done Hdone) as [Hok Hout].
    rewrite (for_each_app _ _ Hok).
    rewrite (@for_each_stops _ _ f todo e') by now rewrite (print_slide_raises Hf).
    rewrite (print_slide_raises Hf), Hout. reflexivity.
Qed.

Lemma failure_prints_one_diagnostic_witness :
  extract_text_from_pptx (only deck_latin1) deck_path =
    ((concat (map (fun dc => block (fst dc) (snd dc))
                (combine [lit "ppt/slides/slide1.xml"] [lit "<a:t>one</a:t>"]))
        ++ [heading (lit "ppt/slides/slide2.xml")])
       ++ [error_prefix
             ++ exn_str (UnicodeDecodeError 233 1 2
                           (lit "invalid continuation byte"))],
     inr tt).
Proof.
  apply (@failure_prints_one_diagnostic ascii_interpreter).
  apply (@raises_on_slide ascii_interpreter _ _ deck_latin1
           [lit "ppt/slides/slide1.xml"] [lit "<a:t>one</a:t>"]
           (lit "ppt/slides/slide2.xml") [lit "ppt/slides/slide3.xml"]).
  - reflexivity.
  - reflexivity.
  - repeat constructor. eexists. split; reflexivity.
  - right. eexists. split; reflexivity.
Defined.

(** C4. When the path cannot be opened as an archive, the run prints
    exactly one line, which begins with [Error:], and so no heading and
    no content line. *)
Theorem unopenable_path_prints_error {I : Interpreter}
    (fs : filesystem) (path : str) (e : exn) :
  fs path = inl e ->
  exists line,
    stdout fs path = [line] /\
    line = error_prefix ++ exn_str e /\
    has_prefix (lit "Error:") line = true /\
    stream (stdout fs path) = line ++ [newline].
Proof.
  intros H. exists (error_prefix ++ exn_str e).
  unfold stdout. rewrite (extract_not_opened _ _ H).
  repeat split. simpl. now rewrite app_nil_r.
Qed.

Lemma unopenable_path_prints_error_witness :
  exists line,
    stdout (only deck312) (lit "missing.pptx") = [line] /\
    line = error_prefix
             ++ exn_str (Raised (lit "[Errno 2] No such file or directory: 'missing.pptx'")) /\
    has_prefix (lit "Error:") line = true /\
    stream (stdout (only deck312) (lit "missing.pptx")) = line ++ [newline].
Proof.
  apply (@unopenable_path_prints_error ascii_interpreter).
  reflexivity.
Defined.

(** C8. An archive without an entry that passes the slide filter gives
    a run that prints nothing, no error line either, and returns. *)
Theorem no_slides_no_output {I : Interpreter}
    (fs : filesystem) (path : str) (z : ZipFile) :
  fs path = inr z ->
  slide_files z = [] ->
  extract_text_from_pptx fs path = ([], inr tt).
Proof.
  intros Hz Hnone. rewrite (extract_opened _ _ Hz).
  unfold print_slides. rewrite Hnone. reflexivity.
Qed.

Lemma no_slides_no_output_witness :
  extract_text_from_pptx (only deck_empty) deck_path = ([], inr tt).
Proof.
  apply (@no_slides_no_output ascii_interpreter _ _ deck_empty);
    reflexivity.
Defined.

(** ** The text pattern *)

Lemma lazy_until_close_sound (s g : str) :
  lazy_until_close s = Some g ->
  exists r, s = g ++ close_tag ++ r /\ ~ In newline g /\
    forall k, k < length g -> has_prefix close_tag (skipn k s) = false.
Proof.
  revert g; induction s as [|c t IH]; intros g; [discriminate|].
  cbn [lazy_until_close].
  destruct (has_prefix close_tag (c :: t)) eqn:Hc.
  - intros [= <-]. exists (skipn (length close_tag) (c :: t)).
    split; [now apply has_prefix_split|]. split; [intros []|]. simpl; lia.
  - destruct (c =? newline)%N eqn:Hn; [discriminate|].
    destruct (lazy_until_close t) as [g'|]; [|discriminate].
    intros [= <-]. destruct (IH _ eq_refl) as (r & -> & Hnl & Hk).
    exists r. split; [reflexivity|]. split.
    + intros [E|E]; [|now apply Hnl]. apply N.eqb_neq in Hn. congruence.
    + intros [|k] Hlt; [exact Hc|]. simpl in *. apply Hk. lia.
Qed.

Lemma lazy_until_close_complete (g r : str) :
  ~ In newline g ->
  (forall k, k < length g ->
     has_prefix close_tag (skipn k (g ++ close_tag ++ r)) = false) ->
  lazy_until_close (g ++ close_tag ++ r) = Some g.
Proof.
  induction g as [|c g IH]; intros Hnl Hk.
  - reflexivity.
  - cbn [app lazy_until_close].
    pose proof (Hk 0 (Nat.lt_0_succ _)) as H0. cbn [skipn app] in H0.
    rewrite H0.
    destruct (c =? newline)%N eqn:Hn.
    { apply N.eqb_eq in Hn. exfalso. apply Hnl. now left. }
    rewrite IH; [reflexivity| |].
    + intros E. apply Hnl. now right.
    + intros k Hlt. apply (Hk (S k)). simpl; lia.
Qed.

Lemma match_here_sound (s g : str) :
  match_here s = Some g ->
  exists r, s = open_tag ++ g ++ close_tag ++ r /\ ~ In newline g /\
    forall k, k < length g ->
      has_prefix close_tag (skipn k (g ++ close_tag ++ r)) = false.
Proof.
  unfold match_here. destruct (has_prefix open_tag s) eqn:Ho; [|discriminate].
  intros H. apply has_prefix_split in Ho. change (length open_tag) with 5 in Ho.
  destruct (lazy_until_close_sound _ H) as (r & Hr & Hnl & Hk).
  exists r. split; [|split; [exact Hnl|]].
  - rewrite Ho at 1. now rewrite Hr.
  - now rewrite <- Hr.
Qed.

Lemma match_here_complete (g r : str) :
  ~ In newline g ->
  (forall k, k < length g ->
     has_prefix close_tag (skipn k (g ++ close_tag ++ r)) = false) ->
  match_here (open_tag ++ g ++ close_tag ++ r) = Some g.
Proof.
  intros Hnl Hk. unfold match_here. rewrite has_prefix_app.
  change (skipn 5 (open_tag ++ g ++ close_tag ++ r)) with (g ++ close_tag ++ r).
  now apply lazy_until_close_complete.
Qed.

Lemma skipn_app_exact {A} (l r : list A) : skipn (length l) (l ++ r) = r.
Proof. induction l; simpl; auto. Qed.

(** An occurrence at [p] is a match of the pattern at [p]. *)
Lemma occurrence_iff (s : str) (p : nat) (g : str) :
  occurrence s p g <-> p < length s /\ match_here (skipn p s) = Some g.
Proof.
  split.
  - intros (l & r & -> & <- & Hnl & Hk). split.
    + rewrite length_app. simpl. lia.
    + rewrite skipn_app_exact. now apply match_here_complete.
  - intros [Hp H]. destruct (match_here_sound _ H) as (r & Hr & Hnl & Hk).
    exists (firstn p s), r. repeat split; try assumption.
    + rewrite <- Hr. symmetry. apply firstn_skipn.
    + rewrite length_firstn. lia.
Qed.

Lemma occurrence_functional (s : str) (p : nat) (g g' : str) :
  occurrence s p g -> occurrence s p g' -> g = g'.
Proof.
  rewrite !occurrence_iff. intros [_ H] [_ H']. congruence.
Qed.

Lemma match_length (s g : str) :
  match_here s = Some g -> 11 + length g <= length s.
Proof.
  intros H. destruct (match_here_sound _ H) as (r & -> & _).
  rewrite !length_app. simpl. lia.
Qed.

(** The matches the scan finds, from index [pos] on with [skip]
    characters to pass: where they stand and what they are. *)
Lemma finditer_from_sound (s : str) : forall skip pos p g,
  In (p, g) (finditer_from skip pos s) ->
  pos + skip <= p /\ p < pos + length s /\
  match_here (skipn (p - pos) s) = Some g.
Proof.
  induction s as [|c t IH]; intros skip pos p g; [intros []|].
  cbn [finditer_from]. destruct skip as [|k].
  - destruct (match_here (c :: t)) as [g0|] eqn:Hm.
    + intros [[= <- <-]|Hin].
      * rewrite Nat.sub_diag. simpl. repeat split; try lia. exact Hm.
      * apply IH in Hin as (H1 & H2 & H3). simpl length.
        replace (p - pos) with (S (p - S pos)) by lia. simpl. repeat split; try lia.
        exact H3.
    + intros Hin. apply IH in Hin as (H1 & H2 & H3). simpl length.
      replace (p - pos) with (S (p - S pos)) by lia. simpl. repeat split; try lia.
      exact H3.
  - intros Hin. apply IH in Hin as (H1 & H2 & H3). simpl length.
    replace (p - pos) with (S (p - S pos)) by lia. simpl. repeat split; try lia.
    exact H3.
Qed.

Lemma finditer_from_disjoint (s : str) : forall skip pos,
  StronglySorted (fun a b => span_end a <= fst b) (finditer_from skip pos s).
Proof.
  induction s as [|c t IH]; intros skip pos; [constructor|].
  cbn [finditer_from]. destruct skip as [|k]; [|apply IH].
  destruct (match_here (c :: t)) as [g0|]; [|apply IH].
  constructor; [apply IH|].
  apply Forall_forall. intros [p g] Hin.
  apply finditer_from_sound in Hin as (H1 & _). unfold span_end. simpl. lia.
Qed.

Lemma finditer_from_complete (s : str) : forall skip pos q g,
  pos + skip <= q -> q < pos + length s ->
  match_here (skipn (q - pos) s) = Some g ->
  exists m, In m (finditer_from skip pos s) /\
            fst m <= q < span_end m /\ (fst m = q -> snd m = g).
Proof.
  induction s as [|c t IH]; intros skip pos q g Hlo Hhi Hm; [simpl in Hhi; lia|].
  cbn [finditer_from]. simpl length in Hhi.
  assert (Hstep : forall k, S pos + k <= q ->
            exists m, In m (finditer_from k (S pos) t) /\
                      fst m <= q < span_end m /\ (fst m = q -> snd m = g)).
  { intros k Hk. apply IH; [exact Hk | lia |].
    replace (q - pos) with (S (q - S pos)) in Hm by lia. exact Hm. }
  destruct skip as [|k]; [|apply Hstep; lia].
  destruct (match_here (c :: t)) as [g0|] eqn:Hm0.
  - destruct (Nat.lt_ge_cases q (pos + 11 + length g0)) as [Hin|Hout].
    + exists (pos, g0). split; [now left|]. unfold span_end. simpl.
      split; [lia|]. intros <-. rewrite Nat.sub_diag in Hm. simpl in Hm. congruence.
    + destruct (Hstep (10 + length g0)) as (m & Hm1 & Hm2); [lia|].
      exists m. split; [now right | exact Hm2].
  - destruct (Nat.eq_dec q pos) as [->|Hne].
    + rewrite Nat.sub_diag in Hm. simpl in Hm. congruence.
    + apply Hstep. lia.
Qed.

(** The groups do not depend on where the scan is said to start. *)
Lemma finditer_from_shift (s : str) : forall skip pos pos',
  map snd (finditer_from skip pos s) = map snd (finditer_from skip pos' s).
Proof.
  induction s as [|c t IH]; intros skip pos pos'; [reflexivity|].
  cbn [finditer_from]. destruct skip as [|k]; [|apply IH].
  destruct (match_here (c :: t)); [|apply IH].
  simpl. f_equal. apply IH.
Qed.

Lemma finditer_from_skip (s : str) : forall skip pos,
  map snd (finditer_from skip pos s) =
  map snd (finditer_from 0 0 (skipn skip s)).
Proof.
  induction s as [|c t IH]; intros skip pos.
  - now destruct skip.
  - destruct skip as [|k].
    + apply finditer_from_shift.
    + cbn [finditer_from skipn]. apply IH.
Qed.

(** The scan, step by step: a match at the head gives its group and the
    scan goes on behind it; otherwise the scan moves one character on. *)
Lemma findall_match_here (s g : str) :
  match_here s = Some g ->
  findall s = g :: findall (skipn (11 + length g) s).
Proof.
  intros H. unfold findall, finditer.
  destruct s as [|c t]; [discriminate|].
  cbn [finditer_from]. rewrite H. cbn [map snd]. f_equal.
  change (11 + length g) with (S (10 + length g)). cbn [skipn].
  apply finditer_from_skip.
Qed.

Lemma findall_match (g r : str) :
  match_here (open_tag ++ g ++ close_tag ++ r) = Some g ->
  findall (open_tag ++ g ++ close_tag ++ r) = g :: findall r.
Proof.
  intros H. rewrite (findall_match_here _ H). do 2 f_equal.
  replace (open_tag ++ g ++ close_tag ++ r)
    with ((open_tag ++ g ++ close_tag) ++ r)
    by now rewrite <- !app_assoc.
  replace (11 + length g) with (length (open_tag ++ g ++ close_tag)).
  - apply skipn_app_exact.
  - rewrite !length_app. simpl. lia.
Qed.

Lemma findall_no_match (c : codepoint) (t : str) :
  match_here (c :: t) = None -> findall (c :: t) = findall t.
Proof.
  intros H. unfold findall, finditer. cbn [finditer_from]. rewrite H.
  apply finditer_from_shift.
Qed.

Lemma finditer_occurrence (content : str) (p : nat) (g : str) :
  In (p, g) (finditer content) -> occurrence content p g.
Proof.
  intros H. apply finditer_from_sound in H as (_ & Hp & Hm).
  apply occurrence_iff. rewrite Nat.sub_0_r in Hm. split; [lia | exact Hm].
Qed.

(** C5. The fragments of a slide are the matches the scan finds: each
    is an occurrence of the tag pair; they come in ascending order of
    their index and none begins before the one before it has ended;
    every occurrence in the content is one of them or begins inside one
    of them; a fragment is kept for every match, empty or repeated; and
    the content line is the fragments joined with one space, so that
    [Hello], the empty fragment and [World] give [Hello  World]. *)
Theorem content_line_joins_all_occurrences (content : str) :
  Forall (fun m => occurrence content (fst m) (snd m)) (finditer content) /\
  StronglySorted (fun a b => span_end a <= fst b) (finditer content) /\
  (forall q g, occurrence content q g ->
     exists m, In m (finditer content) /\
               fst m <= q < span_end m /\ (fst m = q -> snd m = g)) /\
  length (findall content) = length (finditer content) /\
  (forall g r, match_here (open_tag ++ g ++ close_tag ++ r) = Some g ->
     findall (open_tag ++ g ++ close_tag ++ r) = g :: findall r) /\
  content_line content = join space (findall content) /\
  (findall content = [lit "Hello"; []; lit "World"] ->
     content_line content = lit "Hello  World").
Proof.
  repeat split.
  - apply Forall_forall. intros [p g] H. now apply finditer_occurrence.
  - apply finditer_from_disjoint.
  - intros q g Hocc. apply occurrence_iff in Hocc as [Hq Hm].
    apply (@finditer_from_complete content 0 0 q g); [lia | lia |].
    now rewrite Nat.sub_0_r.
  - unfold findall. now rewrite length_map.
  - apply findall_match.
  - unfold content_line. intros ->. reflexivity.
Qed.

Example findall_keeps_duplicates_and_empties :
  findall (lit "<a:p><a:t>x</a:t><a:r/><a:t></a:t><a:t>x</a:t></a:p>")
  = [lit "x"; []; lit "x"].
Proof. reflexivity. Qed.

Example findall_is_lazy_and_leftmost :
  finditer (lit "<a:t><a:t>a</a:t>b</a:t>") = [(0, lit "<a:t>a")].
Proof. reflexivity. Qed.

Section EmptySlide.
Context {I : Interpreter}.

Lemma readable_returns (z : ZipFile) (done : list str) :
  Forall (readable z) done ->
  Forall (fun d => snd (print_slide z d) = inr tt) done.
Proof.
  apply Forall_impl. intros d [c H]. now rewrite (print_slide_ok H).
Qed.

End EmptySlide.

(** C6. A slide whose content has no text element still gets its block:
    the loop body prints the heading, one empty content line and the
    blank line; and when the slides sorted before it are read and
    decoded, the output of the run contains these three lines in a
    row. *)
Theorem slide_without_text_keeps_its_block {I : Interpreter}
    (fs : filesystem) (path : str) (z : ZipFile)
    (done todo : list str) (f content : str) :
  fs path = inr z ->
  sort_by_number (slide_files z) = inr (done ++ f :: todo) ->
  Forall (readable z) done ->
  decodes_to z f content ->
  findall content = [] ->
  print_slide z f = ([heading f; []; []], inr tt) /\
  exists pre post, stdout fs path = pre ++ [heading f; []; []] ++ post.
Proof.
  intros Hz Hsort Hdone Hf Hnone.
  assert (Hblock : print_slide z f = ([heading f; []; []], inr tt)).
  { rewrite (print_slide_ok Hf). unfold block, content_line.
    now rewrite Hnone. }
  split; [exact Hblock|].
  unfold stdout. rewrite (extract_opened _ _ Hz).
  unfold print_slides. rewrite Hsort. unfold call, bind at 1.
  rewrite (for_each_app _ _ (readable_returns Hdone)).
  cbn [for_each]. rewrite Hblock. unfold bind.
  destruct (for_each todo (print_slide z)) as [out r].
  exists (flat_map (fun d => fst (print_slide z d)) done).
  unfold try_except, print. cbn [fst snd].
  destruct r as [e|[]].
  - exists (out ++ [error_prefix ++ exn_str e]). cbn [fst].
    rewrite <- !app_assoc. reflexivity.
  - exists out. reflexivity.
Qed.

Lemma slide_without_text_keeps_its_block_witness :
  print_slide deck312 (lit "ppt/slides/slide2.xml")
    = ([heading (lit "ppt/slides/slide2.xml"); []; []], inr tt) /\
  exists pre post,
    stdout (only deck312) deck_path
    = pre ++ [heading (lit "ppt/slides/slide2.xml"); []; []] ++ post.
Proof.
  apply (@slide_without_text_keeps_its_block ascii_interpreter
           (only deck312) deck_path deck312
           [lit "ppt/slides/slide1.xml"] [lit "ppt/slides/slide3.xml"]
           (lit "ppt/slides/slide2.xml") (lit "<a:p/>")).
  - reflexivity.
  - reflexivity.
  - repeat constructor. eexists. eexists. split; reflexivity.
  - eexists. split; reflexivity.
  - reflexivity.
Defined.

(** ** Occurrences of a substring *)

Lemma find_none_head (sub s : str) :
  find sub s = None -> has_prefix sub s = false.
Proof.
  destruct s; simpl; destruct (has_prefix sub _); congruence.
Qed.

Lemma find_none_tail (sub : str) (c : codepoint) (t : str) :
  find sub (c :: t) = None -> find sub t = None.
Proof.
  simpl. destruct (has_prefix sub (c :: t)); [discriminate|].
  now destruct (find sub t).
Qed.

Lemma find_some_tail (sub : str) (c : codepoint) (t : str) (n : nat) :
  find sub (c :: t) = Some (S n) ->
  has_prefix sub (c :: t) = false /\ find sub t = Some n.
Proof.
  simpl. destruct (has_prefix sub (c :: t)); [discriminate|].
  destruct (find sub t); simpl; intros [= ->]; auto.
Qed.

Lemma find_some (sub s : str) (n : nat) :
  find sub s = Some n -> exists l r, s = l ++ sub ++ r /\ length l = n.
Proof.
  revert n; induction s as [|c t IH]; intros n.
  - simpl. destruct (has_prefix sub []) eqn:E; [|discriminate].
    intros [= <-]. apply has_prefix_split in E. exists [], (skipn (length sub) []).
    auto.
  - destruct n as [|n].
    + simpl. destruct (has_prefix sub (c :: t)) eqn:E.
      * intros _. apply has_prefix_split in E.
        exists [], (skipn (length sub) (c :: t)). auto.
      * destruct (find sub t); discriminate.
    + intros H. apply find_some_tail in H as [_ H].
      destruct (IH _ H) as (l & r & -> & <-). exists (c :: l), r. auto.
Qed.

Lemma finditer_from_none (s : str) : forall skip pos,
  find open_tag s = None -> finditer_from skip pos s = [].
Proof.
  induction s as [|c t IH]; intros skip pos H; [reflexivity|].
  cbn [finditer_from]. destruct skip as [|k].
  - unfold match_here. rewrite (find_none_head _ _ H).
    apply IH. now apply find_none_tail in H.
  - apply IH. now apply find_none_tail in H.
Qed.

Lemma attributed_tag_no_match (c : codepoint) (rest : str) :
  c <> 62%N -> match_here (lit "<a:t" ++ c :: rest) = None.
Proof.
  intros Hc. unfold match_here.
  change (lit "<a:t" ++ c :: rest) with ([60; 97; 58; 116] ++ c :: rest)%N.
  unfold open_tag. cbn [has_prefix app]. rewrite !N.eqb_refl. cbn [andb].
  destruct (N.eqb_spec 62 c) as [E|_]; [congruence | reflexivity].
Qed.

(** C9. A fragment comes only from the literal opening tag [<a:t>]: at
    the index of every match the content reads [<a:t>], the group and
    [</a:t>], with no newline anywhere in that span; an opening tag
    that goes on with anything but [>] (a space and attributes, say) is
    not the start of a match, wherever it stands; and a content that
    nowhere has the literal [<a:t>] gives no fragment and an empty
    content line, as the element with [xml:space="preserve"] does. *)
Theorem only_bare_opening_tag_matches (content : str) :
  (forall p g, In (p, g) (finditer content) ->
     exists l r, content = l ++ (open_tag ++ g ++ close_tag) ++ r /\
                 length l = p /\
                 ~ In newline (open_tag ++ g ++ close_tag)) /\
  (forall pre c rest p g,
     content = pre ++ lit "<a:t" ++ c :: rest -> c <> 62%N ->
     In (p, g) (finditer content) -> p <> length pre) /\
  (find open_tag content = None ->
     findall content = [] /\ content_line content = []) /\
  findall (lit "<a:t xml:space=" ++ [quote] ++ lit "preserve" ++ [quote]
             ++ lit ">text</a:t>") = [].
Proof.
  repeat split.
  - intros p g H. apply finditer_occurrence in H as (l & r & -> & <- & Hnl & _).
    exists l, r. rewrite <- !app_assoc. repeat split.
    intros Hin. apply in_app_or in Hin as [Hin|Hin].
    { cbn in Hin. unfold newline in Hin. intuition discriminate. }
    apply in_app_or in Hin as [Hin|Hin]; [now apply Hnl|].
    cbn in Hin. unfold newline in Hin. intuition discriminate.
  - intros pre c rest p g -> Hc Hin ->.
    apply finditer_from_sound in Hin as (_ & _ & Hm).
    rewrite Nat.sub_0_r, skipn_app_exact in Hm.
    rewrite (attributed_tag_no_match rest Hc) in Hm. discriminate.
  - unfold findall, finditer. now rewrite finditer_from_none.
  - unfold content_line, findall, finditer. now rewrite finditer_from_none.
Qed.

Example attributed_element_in_a_slide :
  content_line
    (lit "<a:r><a:t xml:space=" ++ [quote] ++ lit "preserve" ++ [quote]
       ++ lit ">kept out</a:t></a:r><a:r><a:t>kept</a:t></a:r>")
  = lit "kept".
Proof. reflexivity. Qed.

Example newline_in_an_element :
  findall (lit "<a:t>one" ++ [newline] ++ lit "two</a:t><a:t>three</a:t>")
  = [lit "three"].
Proof. reflexivity. Qed.

(** ** Removing a substring *)

Lemma replace_from_skip (old new l r : str) :
  replace_from old new (length l) (l ++ r) = replace_from old new 0 r.
Proof.
  induction l as [|c l IH]; simpl; [|exact IH].
  destruct r; reflexivity.
Qed.

Lemma replace_from_absent (old : str) (s : str) :
  find old s = None -> replace_from old [] 0 s = s.
Proof.
  induction s as [|c t IH]; intros H; [reflexivity|].
  cbn [replace_from]. rewrite (find_none_head _ _ H).
  f_equal. apply IH. now apply find_none_tail in H.
Qed.

Lemma replace_from_head (o : codepoint) (old r : str) :
  replace_from (o :: old) [] 0 ((o :: old) ++ r)
  = replace_from (o :: old) [] 0 r.
Proof.
  cbn [app replace_from].
  change (o :: old ++ r) with ((o :: old) ++ r). rewrite has_prefix_app.
  replace (length (o :: old) - 1) with (length old) by (simpl; lia).
  cbn [app]. apply replace_from_skip.
Qed.

Lemma replace_from_last (o : codepoint) (old l : str) :
  find (o :: old) (l ++ o :: old) = Some (length l) ->
  replace_from (o :: old) [] 0 (l ++ o :: old) = l.
Proof.
  induction l as [|c l IH]; intros H.
  - rewrite <- (app_nil_r (o :: old)) at 2.
    cbn [app]. change (o :: old ++ []) with ((o :: old) ++ []).
    now rewrite replace_from_head.
  - cbn [app length] in *. apply find_some_tail in H as [Hp H].
    cbn [replace_from]. rewrite Hp. f_equal. now apply IH.
Qed.

Lemma replace_head (old r : str) :
  old <> [] -> replace (old ++ r) old [] = replace r old [].
Proof.
  destruct old as [|o old]; [congruence|]. intros _. apply replace_from_head.
Qed.

Lemma replace_absent (old s : str) :
  old <> [] -> find old s = None -> replace s old [] = s.
Proof.
  destruct old as [|o old]; [congruence|]. intros _. apply replace_from_absent.
Qed.

Lemma replace_last (old l : str) :
  old <> [] -> find old (l ++ old) = Some (length l) ->
  replace (l ++ old) old [] = l.
Proof.
  destruct old as [|o old]; [congruence|]. intros _. apply replace_from_last.
Qed.

(** [replace] with an empty replacement, by its two cases: nothing to
    remove, or the first occurrence goes and the rest is treated alike. *)
Lemma replace_first_occurrence (old l r : str) :
  old <> [] -> find old (l ++ old ++ r) = Some (length l) ->
  replace (l ++ old ++ r) old [] = l ++ replace r old [].
Proof.
  intros Hold. induction l as [|c l IH]; intros H.
  - cbn [app]. now apply replace_head.
  - cbn [app length] in *. apply find_some_tail in H as [Hp H].
    destruct old as [|o old]; [congruence|].
    unfold replace in *. cbn [replace_from]. rewrite Hp. f_equal. now apply IH.
Qed.

Section Label.
Context {I : Interpreter}.

Lemma upper_app (a b : str) : upper (a ++ b) = upper a ++ upper b.
Proof. apply flat_map_app. Qed.

Lemma upper_slide_dir : upper (lit "ppt/slides/") = PPT_SLIDES.
Proof.
  unfold upper. cbn [lit list_ascii_of_string map flat_map N_of_ascii].
  cbn. rewrite !to_upper_ascii by reflexivity. reflexivity.
Qed.

(** The uppercased name of a slide entry: the prefix, then the rest. *)
Lemma upper_slide_file (name : str) :
  is_slide_file name = true ->
  upper name = PPT_SLIDES ++ upper (skipn 11 name).
Proof.
  unfold is_slide_file, startswith. intros H.
  apply andb_true_iff in H as [H _].
  assert (has_prefix (lit "ppt/slides/") name = true) as Hp.
  { apply has_prefix_iff in H as [r ->]. apply has_prefix_iff.
    exists (lit "slide" ++ r). reflexivity. }
  apply has_prefix_split in Hp. change (length (lit "ppt/slides/")) with 11 in Hp.
  rewrite Hp at 1. now rewrite upper_app, upper_slide_dir.
Qed.

Lemma label_strips (rest stem : str) :
  find PPT_SLIDES rest = None ->
  rest = stem ++ DOT_XML ->
  find DOT_XML rest = Some (length stem) ->
  replace (replace (PPT_SLIDES ++ rest) PPT_SLIDES []) DOT_XML [] = stem.
Proof.
  intros Hdir -> Hxml.
  assert (PPT_SLIDES <> []) as Hp by (intros E; discriminate E).
  assert (DOT_XML <> []) as Hx by (intros E; discriminate E).
  rewrite replace_head by exact Hp.
  rewrite (@replace_absent _ _ Hp Hdir).
  now apply replace_last.
Qed.

End Label.

Lemma endswith_app (l p : str) : endswith (l ++ p) p = true.
Proof.
  unfold endswith. rewrite length_app.
  replace (length l + length p - length p) with (length l) by lia.
  rewrite skipn_app_exact. apply andb_true_iff. split.
  - apply Nat.leb_le. lia.
  - now apply str_eqb_eq.
Qed.

Lemma removesuffix_app (l p : str) : removesuffix (l ++ p) p = l.
Proof.
  unfold removesuffix. rewrite endswith_app, length_app.
  replace (length l + length p - length p) with (length l) by lia.
  rewrite firstn_app, Nat.sub_diag, firstn_all. simpl. apply app_nil_r.
Qed.

Lemma removeprefix_app (p r : str) : removeprefix (p ++ r) p = r.
Proof.
  unfold removeprefix, startswith. rewrite has_prefix_app.
  apply skipn_app_exact.
Qed.

(** C7 (as amended). The heading of a slide entry is [--- LABEL ---]
    where the label is the uppercased name with every occurrence of
    [PPT/SLIDES/] removed and then every occurrence of [.XML] removed.
    When the uppercased name has [PPT/SLIDES/] at its start only and
    [.XML] at its end only, that is the uppercased name without its
    prefix and its suffix; [ppt/slides/slide12.xml] gives
    [--- SLIDE12 ---]. *)
Theorem heading_of_slide_entry {I : Interpreter} (name : str) :
  is_slide_file name = true ->
  heading name = lit "--- " ++ label name ++ lit " ---" /\
  label name = replace (replace (upper name) PPT_SLIDES []) DOT_XML [] /\
  (find PPT_SLIDES (upper (skipn 11 name)) = None ->
   find DOT_XML (upper (skipn 11 name))
     = Some (length (upper (skipn 11 name)) - 4) ->
   label name = label_spec name) /\
  heading (lit "ppt/slides/slide12.xml") = lit "--- SLIDE12 ---".
Proof.
  intros Hslide. split; [reflexivity|]. split; [reflexivity|]. split.
  - intros Hdir Hxml. unfold label, label_spec.
    rewrite (upper_slide_file _ Hslide).
    set (rest := upper (skipn 11 name)) in *.
    destruct (find_some _ _ Hxml) as (stem & r & Hrest & Hlen).
    assert (r = []) as ->.
    { apply (f_equal (@length _)) in Hrest. rewrite !length_app in Hrest.
      change (length DOT_XML) with 4 in Hrest.
      destruct r; [reflexivity | simpl in Hrest; lia]. }
    rewrite app_nil_r in Hrest.
    rewrite removeprefix_app, Hrest, removesuffix_app.
    apply label_strips; [now rewrite <- Hrest | reflexivity|].
    rewrite <- Hrest, Hxml. f_equal. rewrite Hrest, length_app. simpl. lia.
  - unfold heading, label, upper.
    cbn [lit list_ascii_of_string map flat_map]. cbn.
    rewrite !to_upper_ascii by reflexivity. reflexivity.
Qed.

Lemma heading_of_slide_entry_witness :
  heading (lit "ppt/slides/slide7.xml")
    = lit "--- " ++ label (lit "ppt/slides/slide7.xml") ++ lit " ---" /\
  label (lit "ppt/slides/slide7.xml")
    = label_spec (lit "ppt/slides/slide7.xml") /\
  heading (lit "ppt/slides/slide12.xml") = lit "--- SLIDE12 ---".
Proof.
  destruct (@heading_of_slide_entry ascii_interpreter
              (lit "ppt/slides/slide7.xml") eq_refl)
    as (Hheading & _ & Hspec & Hexample).
  split; [exact Hheading|]. split; [|exact Hexample].
  apply Hspec; reflexivity.
Defined.

(** C7 as stated fails: for the entry [ppt/slides/slide1.xml.xml] the
    label printed is [SLIDE1], while the uppercased name without prefix
    and suffix is [SLIDE1.XML]. *)
Lemma label_removes_inner_occurrences :
  is_slide_file (lit "ppt/slides/slide1.xml.xml") = true /\
  label (lit "ppt/slides/slide1.xml.xml") = lit "SLIDE1" /\
  label_spec (lit "ppt/slides/slide1.xml.xml") = lit "SLIDE1.XML" /\
  heading (lit "ppt/slides/slide1.xml.xml") = lit "--- SLIDE1 ---".
Proof. repeat split. Qed.

(** C10. The run is a function of what the path opens to: of the
    exception when it cannot be opened, and else of the archive's names
    in their order and of the contents of its slide entries.  Two runs
    that find this the same print the same lines, hence the same
    stream, and end alike, whatever else differs. *)
Theorem output_is_deterministic {I : Interpreter}
    (fs fs' : filesystem) (path path' : str) :
  same_archive (fs path) (fs' path') ->
  extract_text_from_pptx fs path = extract_text_from_pptx fs' path' /\
  stream (stdout fs path) = stream (stdout fs' path').
Proof.
  intros Hsame.
  assert (extract_text_from_pptx fs path = extract_text_from_pptx fs' path')
    as E.
  { unfold same_archive in Hsame.
    destruct (fs path) as [e|z] eqn:Hz, (fs' path') as [e'|z'] eqn:Hz';
      try contradiction.
    - subst e'. now rewrite (extract_not_opened _ _ Hz), (extract_not_opened _ _ Hz').
    - destruct Hsame as [Hnames Hread].
      rewrite (extract_opened _ _ Hz), (extract_opened _ _ Hz').
      f_equal. symmetry. apply print_slides_ext; [|exact Hread].
      unfold slide_files. now rewrite Hnames. }
  split; [exact E|]. unfold stdout. now rewrite E.
Qed.

Lemma output_is_deterministic_witness :
  extract_text_from_pptx (only deck312) deck_path
    = extract_text_from_pptx (only deck312_repacked) deck_path /\
  stream (stdout (only deck312) deck_path)
    = stream (stdout (only deck312_repacked) deck_path).
Proof.
  apply (@output_is_deterministic ascii_interpreter).
  split; [reflexivity|].
  intros f Hf. vm_compute in Hf.
  destruct Hf as [<-|[<-|[<-|[]]]]; reflexivity.
Defined.

(** ** The filter *)

Lemma endswith_split (s p : str) :
  endswith s p = true -> s = firstn (length s - length p) s ++ p.
Proof.
  unfold endswith. intros H. apply andb_true_iff in H as [_ H].
  apply str_eqb_eq in H.
  rewrite <- (firstn_skipn (length s - length p) s) at 1. now f_equal.
Qed.

(** X1. The entries the list comprehension keeps are the names of the
    form [ppt/slides/slide] + anything + [.xml], the two parts not
    overlapping: a kept name has at least twenty characters. *)
Theorem slide_filter_shape (name : str) :
  is_slide_file name = true <->
  exists mid, name = slide_prefix ++ mid ++ xml_suffix.
Proof.
  split.
  - unfold is_slide_file, startswith. intros H.
    apply andb_true_iff in H as [Hp Hs].
    apply has_prefix_split in Hp. change (length slide_prefix) with 16 in Hp.
    remember (skipn 16 name) as r eqn:Hr. clear Hr. subst name.
    destruct (Nat.lt_ge_cases (length r) 4) as [Hshort|Hlong].
    + exfalso.
      destruct r as [|a [|b [|c [|d r']]]]; try (cbn in Hs; discriminate Hs).
      simpl in Hshort. lia.
    + apply endswith_split in Hs. change (length xml_suffix) with 4 in Hs.
      exists (firstn (length r - 4) r).
      rewrite length_app, firstn_app in Hs.
      change (length slide_prefix) with 16 in Hs.
      rewrite firstn_all2 in Hs by (simpl; lia).
      replace (16 + length r - 4 - 16) with (length r - 4) in Hs by lia.
      now rewrite <- app_assoc in Hs.
  - intros [mid ->]. unfold is_slide_file, startswith.
    rewrite has_prefix_app. rewrite !app_assoc. now rewrite endswith_app.
Qed.

(** ** More on the sort *)

Section SortMore.
Context {I : Interpreter}.

Lemma filter_keyed (kl : list (N * str)) (k : N) :
  Forall (fun p => p = keyed (snd p)) kl ->
  filter (fun f => (ordinal f =? k)%N) (map snd kl)
  = map snd (filter (fun q => (fst q =? k)%N) kl).
Proof.
  induction 1 as [|p kl Hp _ IH]; [reflexivity|].
  cbn [map filter]. rewrite IH.
  replace (ordinal (snd p)) with (fst p) by now rewrite Hp at 1.
  now destruct (fst p =? k)%N.
Qed.

Lemma keyed_all (l : list str) :
  Forall (fun p => p = keyed (snd p)) (map keyed l).
Proof. apply Forall_map, Forall_forall. reflexivity. Qed.

End SortMore.

(** X2. The sort returns exactly when every name in the list has a
    number; the list it returns then holds the same names, each as
    often as before, in non-decreasing order of their numbers. *)
Theorem sort_returns_ascending_permutation {I : Interpreter} (l : list str) :
  (Forall (fun f => exists k, has_ordinal f k) l <->
   exists sorted, sort_by_number l = inr sorted) /\
  (forall sorted, sort_by_number l = inr sorted ->
     Permutation sorted l /\ StronglySorted N.le (map ordinal sorted)).
Proof.
  split; [split|].
  - intros H. eexists. now apply sort_by_number_ok.
  - intros [sorted H]. unfold sort_by_number in H.
    destruct (with_keys l) as [e|kl] eqn:E; [discriminate|].
    now apply with_keys_inv in E as [E _].
  - intros sorted H. now apply sort_by_number_sorted.
Qed.

(** X3. The sort is stable: the names that carry one and the same
    number come out in the order the archive listed them. *)
Theorem sort_keeps_order_of_equal_numbers {I : Interpreter}
    (l sorted : list str) (k : N) :
  sort_by_number l = inr sorted ->
  filter (fun f => (ordinal f =? k)%N) sorted
  = filter (fun f => (ordinal f =? k)%N) l.
Proof.
  unfold sort_by_number.
  destruct (with_keys l) as [e|kl] eqn:E; [discriminate|].
  intros [= <-]. apply with_keys_inv in E as [_ ->].
  rewrite filter_keyed.
  - rewrite sort_pairs_stable, <- filter_keyed by apply keyed_all.
    now rewrite map_snd_keyed.
  - eapply Permutation_Forall; [symmetry; apply sort_pairs_perm|].
    apply keyed_all.
Qed.

Lemma sort_keeps_order_of_equal_numbers_witness :
  filter (fun f => (ordinal f =? 1)%N)
    [lit "ppt/slides/slide1.xml"; lit "ppt/slides/slide01.xml";
     lit "ppt/slides/slide2.xml"]
  = filter (fun f => (ordinal f =? 1)%N)
      [lit "ppt/slides/slide2.xml"; lit "ppt/slides/slide1.xml";
       lit "ppt/slides/slide01.xml"].
Proof.
  apply (@sort_keeps_order_of_equal_numbers ascii_interpreter).
  reflexivity.
Defined.

(** ** The shape of a run *)

Section Shape.
Context {I : Interpreter}.

Lemma blocks_length (fs contents : list str) :
  length fs = length contents -> length (blocks fs contents) = 3 * length fs.
Proof.
  revert contents; induction fs as [|f fs IH]; intros [|c contents] H;
    try discriminate; [reflexivity|].
  unfold blocks in *. cbn [combine map concat fst snd block app length].
  injection H as H. rewrite (IH _ H). lia.
Qed.

(** The slides of a list are all read and decoded, or there is a first
    one that is not. *)
Lemma first_unreadable (z : ZipFile) (l : list str) :
  (exists contents, Forall2 (decodes_to z) l contents) \/
  (exists done contents f todo e,
     l = done ++ f :: todo /\ Forall2 (decodes_to z) done contents /\
     unreadable z f e).
Proof.
  induction l as [|x l IH].
  - left. exists []. constructor.
  - destruct (readable_or_not z x) as [[c Hc]|[e He]].
    + destruct IH as [[cs Hcs]|(done & cs & f & todo & e & -> & Hd & Hf)].
      * left. exists (c :: cs). now constructor.
      * right. exists (x :: done), (c :: cs), f, todo, e.
        repeat split; [now constructor | exact Hf].
    + right. exists [], [], x, l, e. repeat split; [constructor | exact He].
Qed.

Lemma run_all_read (fs : filesystem) (path : str) (z : ZipFile)
    (sorted contents : list str) :
  fs path = inr z ->
  sort_by_number (slide_files z) = inr sorted ->
  Forall2 (decodes_to z) sorted contents ->
  extract_text_from_pptx fs path = (blocks sorted contents, inr tt).
Proof.
  intros Hz Hsort Hall. rewrite (extract_opened _ _ Hz).
  unfold print_slides. rewrite Hsort. unfold call, bind.
  destruct (blocks_of_done Hall) as [Hok Hout].
  rewrite (for_each_ok _ Hok), Hout. reflexivity.
Qed.

Lemma run_stops_at (fs : filesystem) (path : str) (z : ZipFile)
    (done contents : list str) (f : str) (todo : list str) (e : exn) :
  fs path = inr z ->
  sort_by_number (slide_files z) = inr (done ++ f :: todo) ->
  Forall2 (decodes_to z) done contents ->
  unreadable z f e ->
  extract_text_from_pptx fs path
  = (blocks done contents ++ [heading f; error_prefix ++ exn_str e], inr tt).
Proof.
  intros Hz Hsort Hdone Hf. rewrite (extract_opened _ _ Hz).
  unfold print_slides. rewrite Hsort. unfold call, bind at 1.
  destruct (blocks_of_done Hdone) as [Hok Hout].
  rewrite (for_each_app _ _ Hok).
  rewrite (@for_each_stops _ _ f todo e) by now rewrite (print_slide_raises Hf).
  rewrite (print_slide_raises Hf), Hout. unfold try_except, print, blocks.
  cbn [fst snd app]. now rewrite <- app_assoc.
Qed.

End Shape.



(** X4. When the archive opens, every slide name has a number and every
    slide is read and decoded, the run prints the blocks of the slides
    in sorted order and nothing else: three strings for each entry
    the filter kept, and no error line. *)
Theorem complete_run_prints_every_block {I : Interpreter}
    (fs : filesystem) (path : str) (z : ZipFile)
    (sorted contents : list str) :
  fs path = inr z ->
  sort_by_number (slide_files z) = inr sorted ->
  Forall2 (decodes_to z) sorted contents ->
  extract_text_from_pptx fs path = (blocks sorted contents, inr tt) /\
  length (stdout fs path) = 3 * length (slide_files z).
Proof.
  intros Hz Hsort Hall.
  pose proof (@run_all_read _ fs path z sorted contents Hz Hsort Hall) as E.
  split; [exact E|]. unfold stdout. rewrite E. cbn [fst].
  rewrite blocks_length by (eapply Forall2_length; eassumption).
  f_equal. apply Permutation_length.
  now apply sort_by_number_sorted in Hsort as [HP _].
Qed.

Lemma complete_run_prints_every_block_witness :
  extract_text_from_pptx (only deck312) deck_path
  = (blocks [lit "ppt/slides/slide1.xml"; lit "ppt/slides/slide2.xml";
             lit "ppt/slides/slide3.xml"]
            [lit "<a:p><a:t>Hello</a:t><a:t></a:t><a:t>World</a:t></a:p>";
             lit "<a:p/>"; lit "<a:t>three</a:t>"], inr tt) /\
  length (stdout (only deck312) deck_path) = 3 * length (slide_files deck312).
Proof.
  apply (@complete_run_prints_every_block ascii_interpreter).
  - reflexivity.
  - reflexivity.
  - repeat constructor; eexists; split; reflexivity.
Defined.

(** X5. Every run has one of three shapes.  It prints the error line
    alone, when the archive does not open or the key of a slide name
    raises.  Or it prints the blocks of all slides in sorted order.  Or
    it prints the blocks of the slides before the first one that cannot
    be read or decoded, the heading of that one, and the error line. *)
Theorem every_run_has_one_of_three_shapes {I : Interpreter}
    (fs : filesystem) (path : str) :
  (exists e,
     (fs path = inl e \/
      exists z, fs path = inr z /\ sort_by_number (slide_files z) = inl e) /\
     stdout fs path = [error_prefix ++ exn_str e]) \/
  (exists z sorted contents,
     fs path = inr z /\ sort_by_number (slide_files z) = inr sorted /\
     Forall2 (decodes_to z) sorted contents /\
     stdout fs path = blocks sorted contents) \/
  (exists z done contents f todo e,
     fs path = inr z /\
     sort_by_number (slide_files z) = inr (done ++ f :: todo) /\
     Forall2 (decodes_to z) done contents /\ unreadable z f e /\
     stdout fs path
     = blocks done contents ++ [heading f; error_prefix ++ exn_str e]).
Proof.
  unfold stdout.
  destruct (fs path) as [e|z] eqn:Hz.
  - left. exists e. split; [now left|].
    now rewrite (extract_not_opened _ _ Hz).
  - destruct (sort_by_number (slide_files z)) as [e|sorted] eqn:Hsort.
    + left. exists e. split; [right; eauto|].
      rewrite (extract_opened _ _ Hz). unfold print_slides. now rewrite Hsort.
    + right.
      destruct (first_unreadable z sorted)
        as [[cs Hcs]|(done & cs & f & todo & e & -> & Hd & Hf)].
      * left. exists z, sorted, cs. repeat split; try assumption.
        now rewrite (@run_all_read _ fs path z sorted cs Hz Hsort Hcs).
      * right. exists z, done, cs, f, todo, e. repeat split; try assumption.
        now rewrite (@run_stops_at _ fs path z done cs f todo e Hz Hsort Hd Hf).
Qed.

(** X6. The entries the filter drops have no part in the run: two
    archives with the same slide entries in the same order, and the
    same contents for them, give the same output, whatever other
    entries they hold and wherever these stand. *)
Theorem other_entries_do_not_matter {I : Interpreter}
    (fs fs' : filesystem) (path path' : str) (z z' : ZipFile) :
  fs path = inr z -> fs' path' = inr z' ->
  slide_files z = slide_files z' ->
  (forall f, In f (slide_files z) -> read z f = read z' f) ->
  extract_text_from_pptx fs path = extract_text_from_pptx fs' path'.
Proof.
  intros Hz Hz' Hfiles Hread.
  rewrite (extract_opened _ _ Hz), (extract_opened _ _ Hz').
  f_equal. symmetry. apply print_slides_ext; [now rewrite Hfiles | exact Hread].
Qed.

Lemma other_entries_do_not_matter_witness :
  extract_text_from_pptx (only deck312) deck_path
  = extract_text_from_pptx (only deck312_extra) deck_path.
Proof.
  apply (@other_entries_do_not_matter ascii_interpreter
           _ _ _ _ deck312 deck312_extra).
  - reflexivity.
  - reflexivity.
  - reflexivity.
  - intros f Hf. vm_compute in Hf.
    destruct Hf as [<-|[<-|[<-|[]]]]; reflexivity.
Defined.

(** ** More on the text pattern *)

Lemma has_prefix_grow (p a x : str) :
  has_prefix p a = true -> has_prefix p (a ++ x) = true.
Proof.
  intros H. apply has_prefix_iff in H as [r ->].
  rewrite <- app_assoc. apply has_prefix_app.
Qed.

Lemma has_prefix_length (p s : str) :
  has_prefix p s = true -> length p <= length s.
Proof.
  intros H. apply has_prefix_iff in H as [r ->]. rewrite length_app. lia.
Qed.

(** Whether [p] stands at [k] is decided by the characters up to
    [k + length p]. *)
Lemma has_prefix_within (p a x : str) (k : nat) :
  k + length p <= length a ->
  has_prefix p (skipn k (a ++ x)) = has_prefix p (skipn k a).
Proof.
  intros Hk. rewrite skipn_app.
  replace (k - length a) with 0 by lia. cbn [skipn].
  assert (length p <= length (skipn k a)) as Hlen by (rewrite length_skipn; lia).
  revert Hlen. generalize (skipn k a) as b. clear.
  induction p as [|c p IH]; intros [|d b] Hlen; simpl in *; try reflexivity; try lia.
  rewrite IH by lia. reflexivity.
Qed.

Lemma find_first (sub s : str) (n : nat) :
  find sub s = Some n ->
  forall k, k < n -> has_prefix sub (skipn k s) = false.
Proof.
  revert n; induction s as [|c t IH]; intros n H k Hk.
  - simpl in H. destruct (has_prefix sub []); [|discriminate].
    injection H as <-. lia.
  - destruct n as [|n]; [lia|].
    apply find_some_tail in H as [Hp H].
    destruct k as [|k]; [exact Hp|]. cbn [skipn]. apply (IH _ H). lia.
Qed.

Lemma find_none_everywhere (sub s : str) :
  (forall k, k <= length s -> has_prefix sub (skipn k s) = false) ->
  find sub s = None.
Proof.
  induction s as [|c t IH]; intros H.
  - pose proof (H 0 (Nat.le_refl _)) as H0. cbn [skipn] in H0.
    simpl. now rewrite H0.
  - simpl. pose proof (H 0 (Nat.le_0_l _)) as H0. cbn [skipn] in H0.
    rewrite H0. rewrite IH; [reflexivity|].
    intros k Hk. apply (H (S k)). simpl. lia.
Qed.

Lemma findall_in (content g : str) :
  In g (findall content) -> exists p, In (p, g) (finditer content).
Proof.
  unfold findall. intros H. apply in_map_iff in H as ([p g'] & <- & H).
  now exists p.
Qed.

(** X7. A fragment never holds a line break and never holds the closing
    tag: the group stops at the first [</a:t>]. *)
Theorem fragment_has_no_newline_nor_closing_tag (content g : str) :
  In g (findall content) ->
  ~ In newline g /\ find close_tag g = None.
Proof.
  intros H. apply findall_in in H as [p H].
  apply finditer_occurrence in H as (l & r & _ & _ & Hnl & Hk).
  split; [exact Hnl|].
  apply find_none_everywhere. intros k Hle.
  destruct (has_prefix close_tag (skipn k g)) eqn:E; [|reflexivity].
  exfalso. destruct (Nat.eq_dec k (length g)) as [->|Hne].
  - rewrite skipn_all in E. discriminate.
  - assert (k < length g) as Hlt by lia.
    specialize (Hk k Hlt). rewrite skipn_app in Hk.
    replace (k - length g) with 0 in Hk by lia. cbn [skipn] in Hk.
    rewrite has_prefix_grow in Hk by exact E. discriminate.
Qed.

Lemma fragment_has_no_newline_nor_closing_tag_witness :
  ~ In newline (lit "<a:t>a") /\ find close_tag (lit "<a:t>a") = None.
Proof.
  apply (@fragment_has_no_newline_nor_closing_tag
           (lit "<a:t><a:t>a</a:t>b</a:t>")).
  now left.
Defined.

Lemma list_sum_step (x : nat) (l : list nat) :
  list_sum (x :: l) = x + list_sum l.
Proof. reflexivity. Qed.

Lemma join_space_length (gs : list str) :
  length (join space gs) <= list_sum (map (fun g => 1 + length g) gs).
Proof.
  induction gs as [|g gs IH]; [simpl; lia|].
  destruct gs as [|g' gs]; [simpl; lia|].
  change (join space (g :: g' :: gs)) with (g ++ space ++ join space (g' :: gs)).
  rewrite !length_app. change (length space) with 1.
  cbn [map] in *. rewrite !list_sum_step in *. lia.
Qed.

Lemma finditer_from_room (s : str) : forall skip pos,
  list_sum (map (fun m => 11 + length (snd m)) (finditer_from skip pos s))
  <= length s - skip.
Proof.
  induction s as [|c t IH]; intros skip pos; [simpl; lia|].
  cbn [finditer_from]. destruct skip as [|k].
  - destruct (match_here (c :: t)) as [g|] eqn:Hm.
    + apply match_length in Hm. specialize (IH (10 + length g) (S pos)).
      cbn [map snd length] in *. rewrite list_sum_step. lia.
    + specialize (IH 0 (S pos)). cbn [length]. lia.
  - specialize (IH k (S pos)). cbn [length]. lia.
Qed.

(** X8. The content line is shorter than the slide's content by at
    least ten characters for every fragment: the tags are dropped and
    at most one space stands in for each pair. *)
Theorem content_line_is_shorter (content : str) :
  length (content_line content) + 10 * length (findall content)
  <= length content.
Proof.
  pose proof (finditer_from_room content 0 0) as Hroom.
  pose proof (join_space_length (findall content)) as Hjoin.
  unfold content_line, findall, finditer in *.
  rewrite Nat.sub_0_r in Hroom. rewrite map_map in Hjoin.
  rewrite length_map.
  assert (forall ms : list (nat * str),
            list_sum (map (fun m => 1 + length (snd m)) ms) + 10 * length ms
            = list_sum (map (fun m => 11 + length (snd m)) ms)) as Hsum.
  { induction ms as [|m ms IHms]; [reflexivity|].
    cbn [map length]. rewrite !list_sum_step. lia. }
  etransitivity; [|exact Hroom].
  rewrite <- Hsum. apply Nat.add_le_mono_r. exact Hjoin.
Qed.

Lemma findall_skip_markup (markup rest : str) :
  (forall k, k < length markup ->
     has_prefix open_tag (skipn k (markup ++ rest)) = false) ->
  findall (markup ++ rest) = findall rest.
Proof.
  induction markup as [|c markup IH]; intros H; [reflexivity|].
  cbn [app]. rewrite findall_no_match.
  - apply IH. intros k Hk. apply (H (S k)). simpl. lia.
  - unfold match_here. pose proof (H 0 (Nat.lt_0_succ _)) as H0.
    cbn [skipn app] in H0. now rewrite H0.
Qed.

Lemma findall_none (tail : str) :
  find open_tag tail = None -> findall tail = [].
Proof.
  intros H. unfold findall, finditer. now rewrite finditer_from_none.
Qed.

(** X9. Writing texts out and extracting them is a round trip.  When in
    each piece of markup the first [<a:t>] is the one that follows it,
    each text has no line break and is followed by the first [</a:t>],
    and the tail has no [<a:t>], the fragments found are the texts, in
    order, one for one. *)
Theorem findall_render (items : list (str * str)) (tail : str) :
  Forall (fun it =>
            find open_tag (fst it ++ open_tag) = Some (length (fst it)) /\
            ~ In newline (snd it) /\
            find close_tag (snd it ++ close_tag) = Some (length (snd it)))
         items ->
  find open_tag tail = None ->
  findall (render items tail) = map snd items.
Proof.
  intros Hitems Htail.
  induction Hitems as [|[markup text] items (Hm & Hnl & Hc) _ IH].
  - now apply findall_none.
  - cbn [render map fst snd] in *.
    rewrite findall_skip_markup.
    + rewrite findall_match; [now rewrite IH|].
      apply match_here_complete; [exact Hnl|].
      intros k Hk. rewrite app_assoc.
      rewrite has_prefix_within
        by (rewrite length_app; change (length close_tag) with 6; lia).
      now apply (find_first _ _ Hc).
    + intros k Hk. rewrite app_assoc.
      rewrite has_prefix_within
        by (rewrite length_app; change (length open_tag) with 5; lia).
      now apply (find_first _ _ Hm).
Qed.

Lemma findall_render_witness :
  findall (render [(lit "<a:p><a:r><a:rPr/>", lit "Title");
                   (lit "</a:r><a:tab/><a:r>", []);
                   (lit "</a:r><a:r>", lit "Title")]
                  (lit "</a:r></a:p>"))
  = [lit "Title"; []; lit "Title"].
Proof.
  apply findall_render.
  - repeat constructor; cbn; unfold newline; intuition discriminate.
  - reflexivity.
Defined.

(** ** More on the decoder *)

Ltac bool_to_prop :=
  repeat match goal with
         | H : (_ && _)%bool = true |- _ => apply andb_true_iff in H as [? ?]
         | H : (_ || _)%bool = false |- _ => apply orb_false_iff in H as [? ?]
         | H : negb _ = false |- _ => apply negb_false_iff in H
         | H : (if ?b then _ else _) = false |- _ => destruct b eqn:?
         | H : (_ <? _)%N = true |- _ => apply N.ltb_lt in H
         | H : (_ <? _)%N = false |- _ => apply N.ltb_ge in H
         | H : (_ <=? _)%N = true |- _ => apply N.leb_le in H
         | H : (_ <=? _)%N = false |- _ => apply N.leb_gt in H
         | H : (_ =? _)%N = true |- _ => apply N.eqb_eq in H
         | H : (_ =? _)%N = false |- _ => apply N.eqb_neq in H
         end.

(** A step yields a Unicode scalar value in its shortest form. *)
Lemma utf8_step_scalar (s : list N) (c : codepoint) (w : nat) :
  utf8_step s = Char c w ->
  (c < 1114112)%N /\ ~ (55296 <= c < 57344)%N /\
  (w = 1 /\ (c < 128)%N \/ w = 2 /\ (128 <= c < 2048)%N \/
   w = 3 /\ (2048 <= c < 65536)%N \/ w = 4 /\ (65536 <= c)%N).
Proof.
  unfold utf8_step, is_continuation.
  repeat match goal with
         | |- context [match ?l with [] => _ | _ :: _ => _ end] => destruct l
         | |- context [if ?b then _ else _] => destruct b eqn:?
         end;
    intros H; try discriminate H; injection H as <- <-;
    bool_to_prop; lia.
Qed.

Lemma decode_loop_scalars (fuel : nat) : forall pos s out,
  decode_loop fuel pos s = inr out ->
  Forall (fun c => (c < 1114112)%N /\ ~ (55296 <= c < 57344)%N) out /\
  length out <= length s.
Proof.
  induction fuel as [|fuel IH]; intros pos s out H.
  - destruct s; injection H as <-; split; try constructor; simpl; lia.
  - destruct s as [|ch r]; [injection H as <-; split; [constructor | simpl; lia]|].
    cbn [decode_loop] in H.
    destruct (utf8_step (ch :: r)) as [c w| | |k] eqn:E; try discriminate.
    destruct (decode_loop fuel (pos + N.of_nat w) (skipn w (ch :: r)))
      as [e|rest] eqn:E'; [discriminate|].
    injection H as <-. apply IH in E' as [Hall Hlen].
    pose proof (utf8_step_width _ E) as Hw.
    apply utf8_step_scalar in E as (H1 & H2 & _).
    split; [constructor; [split; assumption | exact Hall]|].
    rewrite length_skipn in Hlen. cbn [length] in *. lia.
Qed.

(** X10. What the decoder gives is text of Unicode scalar values: no
    code point is above U+10FFFF or a surrogate, and there are at most
    as many characters as there were bytes. *)
Theorem decode_utf8_gives_scalar_values (b : bytes) (content : str) :
  decode_utf8 b = inr content ->
  Forall (fun c => (c < 1114112)%N /\ ~ (55296 <= c < 57344)%N) content /\
  length content <= length b.
Proof.
  unfold decode_utf8. intros H. apply decode_loop_scalars in H.
  now rewrite length_map in H.
Qed.

Lemma decode_utf8_gives_scalar_values_witness :
  Forall (fun c => (c < 1114112)%N /\ ~ (55296 <= c < 57344)%N)
    [233; 8364; 128512]%N /\
  length [233; 8364; 128512]%N
  <= length [xc3; xa9; xe2; x82; xac; xf0; x9f; x98; x80].
Proof.
  apply decode_utf8_gives_scalar_values. reflexivity.
Defined.

(** X11. A slide whose bytes are all ASCII is printed as it is spelled:
    the loop body decodes the bytes to the same characters and prints
    the block for them. *)
Theorem ascii_slide_is_printed_as_spelled {I : Interpreter}
    (z : ZipFile) (f : str) (raw : bytes) :
  read z f = inr raw ->
  Forall (fun x => (Byte.to_N x < 128)%N) raw ->
  print_slide z f = (block f (map Byte.to_N raw), inr tt).
Proof.
  intros Hr Hascii. apply print_slide_ok.
  exists raw. split; [exact Hr | now apply decode_utf8_ascii].
Qed.

Lemma ascii_slide_is_printed_as_spelled_witness :
  print_slide deck312 (lit "ppt/slides/slide3.xml")
  = (block (lit "ppt/slides/slide3.xml")
       (map Byte.to_N (blit "<a:t>three</a:t>")), inr tt).
Proof.
  apply (@ascii_slide_is_printed_as_spelled ascii_interpreter).
  - reflexivity.
  - repeat constructor.
Defined.

(** ** Names of the usual form *)

Ltac ascii_code :=
  match goal with
  | |- context [N_of_ascii ?c] =>
      let x := eval vm_compute in (N_of_ascii c) in
      change (N_of_ascii c) with x
  end.

Lemma lit_cons (c : ascii) (s : string) :
  lit (String c s) = N_of_ascii c :: lit s.
Proof. reflexivity. Qed.

Lemma uint_digits (d : Decimal.uint) :
  Forall (fun c => (48 <= c <= 57)%N)
    (lit (DecimalString.NilEmpty.string_of_uint d)).
Proof.
  induction d; cbn [DecimalString.NilEmpty.string_of_uint];
    try rewrite lit_cons; constructor; try assumption; ascii_code; lia.
Qed.

Lemma decimal_digits (n : N) :
  Forall (fun c => (48 <= c <= 57)%N) (decimal n) /\ decimal n <> [].
Proof.
  unfold decimal, DecimalString.NilZero.string_of_uint.
  destruct (N.to_uint n) eqn:E;
    try (split; [rewrite <- E at 1; rewrite E; apply uint_digits
                | cbn [DecimalString.NilEmpty.string_of_uint];
                  rewrite lit_cons; discriminate]).
  split; [repeat constructor; cbn; lia | discriminate].
Qed.

Section Numbers.
Context {I : Interpreter}.

Let step (acc d : N) : N := (10 * acc + decimal_value d)%N.

Lemma digits_value_unfold (ds : str) :
  digits_value ds = fold_left step ds 0%N.
Proof. reflexivity. Qed.

Lemma fold_uint_acc (d : Decimal.uint) : forall p,
  fold_left step (lit (DecimalString.NilEmpty.string_of_uint d)) (Npos p)
  = Npos (Pos.of_uint_acc d p).
Proof.
  induction d; intros p; cbn [DecimalString.NilEmpty.string_of_uint];
    try reflexivity;
    rewrite lit_cons; cbn [fold_left Pos.of_uint_acc]; rewrite <- IHd;
    f_equal; unfold step; ascii_code;
    rewrite decimal_value_ascii by lia; lia.
Qed.

Lemma fold_uint (d : Decimal.uint) :
  fold_left step (lit (DecimalString.NilEmpty.string_of_uint d)) 0%N
  = Pos.of_uint d.
Proof.
  induction d; cbn [DecimalString.NilEmpty.string_of_uint];
    try reflexivity;
    rewrite lit_cons; cbn [fold_left Pos.of_uint];
    [ rewrite <- IHd | rewrite <- fold_uint_acc .. ];
    f_equal; unfold step; ascii_code;
    rewrite decimal_value_ascii by lia; lia.
Qed.

(** [int(str(n)) == n]. *)
Lemma digits_value_decimal (n : N) : digits_value (decimal n) = n.
Proof.
  rewrite digits_value_unfold. unfold decimal, DecimalString.NilZero.string_of_uint.
  rewrite <- (Unsigned.of_to n) at 2. unfold N.of_uint.
  destruct (N.to_uint n); try apply fold_uint.
  cbn [fold_left lit]. unfold step. cbn.
  now rewrite decimal_value_ascii by lia.
Qed.

Lemma digits_value_zeros (zeros : nat) (ds : str) :
  digits_value (repeat 48%N zeros ++ ds) = digits_value ds.
Proof.
  rewrite !digits_value_unfold, fold_left_app. f_equal.
  induction zeros as [|k IH]; [reflexivity|].
  cbn [repeat fold_left]. unfold step at 2.
  rewrite decimal_value_ascii by lia. exact IH.
Qed.

End Numbers.

Lemma find_absent_head (c : codepoint) (sub s : str) :
  ~ In c s -> find (c :: sub) s = None.
Proof.
  induction s as [|d s IH]; intros H; [reflexivity|].
  cbn [find has_prefix]. destruct (N.eqb_spec c d) as [->|_].
  - exfalso. apply H. now left.
  - cbn [andb]. rewrite IH; [reflexivity|]. intros Hin. apply H. now right.
Qed.

Lemma has_prefix_refl (p : str) : has_prefix p p = true.
Proof. rewrite <- (app_nil_r p) at 2. apply has_prefix_app. Qed.

Lemma find_behind (c : codepoint) (sub s : str) :
  ~ In c s -> find (c :: sub) (s ++ c :: sub) = Some (length s).
Proof.
  induction s as [|d s IH]; intros H.
  - cbn [app length find]. now rewrite has_prefix_refl.
  - cbn [app find has_prefix length]. destruct (N.eqb_spec c d) as [->|_].
    + exfalso. apply H. now left.
    + cbn [andb]. rewrite IH; [reflexivity|]. intros Hin. apply H. now right.
Qed.

Section Canonical.
Context {I : Interpreter}.

Lemma take_while_digits (ds rest : str) (c : codepoint) :
  Forall (fun d => (48 <= d <= 57)%N) ds -> (c < 48)%N ->
  take_while is_decimal (ds ++ c :: rest) = ds.
Proof.
  intros Hds Hc. induction Hds as [|d ds Hd _ IH]; cbn [app take_while].
  - rewrite is_decimal_ascii by lia.
    replace (48 <=? c)%N with false by (symmetry; apply N.leb_gt; lia).
    reflexivity.
  - rewrite is_decimal_ascii by lia.
    replace (48 <=? d)%N with true by (symmetry; apply N.leb_le; lia).
    replace (d <=? 57)%N with true by (symmetry; apply N.leb_le; lia).
    cbn [andb]. now rewrite IH.
Qed.

Lemma upper_digits (ds : str) :
  Forall (fun d => (48 <= d <= 57)%N) ds -> upper ds = ds.
Proof.
  unfold upper. induction 1 as [|d ds Hd _ IH]; [reflexivity|].
  cbn [flat_map]. rewrite IH, to_upper_ascii by lia.
  replace (97 <=? d)%N with false by (symmetry; apply N.leb_gt; lia).
  reflexivity.
Qed.

(** The key of a name of the usual form is the run of digits in it. *)
Lemma search_usual_name (ds : str) :
  ds <> [] -> Forall (fun d => (48 <= d <= 57)%N) ds ->
  search_slide_digits (slide_prefix ++ ds ++ xml_suffix) = Some ds.
Proof.
  intros Hne Hds. unfold slide_prefix. cbn [app].
  cbn [search_slide_digits has_prefix slide_word N.eqb Pos.eqb andb skipn
         take_while].
  rewrite (@is_decimal_ascii _ 115%N) by reflexivity.
  cbn [N.leb N.compare Pos.compare Pos.compare_cont andb].
  unfold xml_suffix. rewrite take_while_digits; [|exact Hds|reflexivity].
  destruct ds; [congruence | reflexivity].
Qed.

Lemma upper_letters :
  upper (lit "slide") = lit "SLIDE" /\ upper xml_suffix = DOT_XML.
Proof.
  unfold upper, xml_suffix. cbn [lit list_ascii_of_string map flat_map].
  repeat ascii_code. rewrite !to_upper_ascii by reflexivity.
  split; reflexivity.
Qed.

Lemma label_usual_name (ds : str) :
  Forall (fun d => (48 <= d <= 57)%N) ds ->
  label (slide_prefix ++ ds ++ xml_suffix) = lit "SLIDE" ++ ds.
Proof.
  intros Hds. unfold label.
  change slide_prefix with (lit "ppt/slides/" ++ lit "slide").
  rewrite <- app_assoc, !upper_app, upper_slide_dir.
  rewrite (@upper_digits ds Hds).
  destruct upper_letters as [-> ->].
  assert (forall c, In c (lit "SLIDE" ++ ds) -> c <> 80%N /\ c <> 46%N) as Hin.
  { intros c Hc. apply in_app_or in Hc as [Hc|Hc].
    - cbn in Hc. intuition (subst; discriminate).
    - rewrite Forall_forall in Hds. specialize (Hds _ Hc). lia. }
  rewrite (app_assoc (lit "SLIDE")).
  apply label_strips; [|reflexivity|].
  - apply find_absent_head. intros Hc. apply in_app_or in Hc as [Hc|Hc].
    + now apply Hin in Hc.
    + cbn in Hc. intuition discriminate.
  - apply find_behind. intros Hc. now apply Hin in Hc.
Qed.

End Canonical.

(** X12. A name of the usual form, [ppt/slides/slide], the number in
    decimal with or without zeros in front, [.xml], passes the filter,
    sorts by exactly that number, and is headed [--- SLIDE<digits> ---],
    provided the digits are no more than the interpreter's limit for
    [int], if it has one. *)
Theorem usual_slide_name {I : Interpreter} (zeros : nat) (n : N) :
  (forall limit, max_str_digits = Some limit ->
     zeros + length (decimal n) <= limit) ->
  is_slide_file (slide_name zeros n) = true /\
  sort_key (slide_name zeros n) = inr n /\
  heading (slide_name zeros n)
  = lit "--- SLIDE" ++ repeat 48%N zeros ++ decimal n ++ lit " ---".
Proof.
  intros Hlimit. unfold slide_name.
  set (ds := repeat 48%N zeros ++ decimal n).
  destruct (decimal_digits n) as [Hdec Hne].
  assert (Forall (fun d => (48 <= d <= 57)%N) ds) as Hds.
  { apply Forall_app. split; [|exact Hdec].
    apply Forall_forall. intros d Hd. apply repeat_spec in Hd. lia. }
  assert (ds <> []) as Hds'.
  { unfold ds. intros E. apply app_eq_nil in E as [_ E]. contradiction. }
  split; [|split].
  - unfold is_slide_file, startswith. rewrite has_prefix_app.
    rewrite app_assoc. now rewrite endswith_app.
  - unfold sort_key. rewrite (search_usual_name Hds' Hds). unfold int.
    assert (digits_value ds = n) as ->
      by (unfold ds; now rewrite digits_value_zeros, digits_value_decimal).
    destruct max_str_digits as [limit|] eqn:E; [|reflexivity].
    specialize (Hlimit _ eq_refl).
    match goal with
    | |- context [if ?b then _ else _] => destruct b eqn:El
    end; [|reflexivity].
    apply Nat.ltb_lt in El. unfold ds in El.
    rewrite length_app, repeat_length in El.
    unfold str, codepoint in *. lia.
  - unfold heading. rewrite (label_usual_name Hds). unfold ds.
    now rewrite <- !app_assoc.
Qed.

Lemma usual_slide_name_witness :
  is_slide_file (slide_name 2 7) = true /\
  sort_key (slide_name 2 7) = inr 7%N /\
  heading (slide_name 2 7)
  = lit "--- SLIDE" ++ repeat 48%N 2 ++ decimal 7 ++ lit " ---".
Proof.
  apply (@usual_slide_name ascii_interpreter 2 7).
  intros limit [= <-]. vm_compute. lia.
Defined.

Example slide_name_2_7 : slide_name 2 7 = lit "ppt/slides/slide007.xml".
Proof. reflexivity. Qed.

(** X14. Where the number of a slide entry is taken from: the digits
    that follow [ppt/slides/slide], as many as there are; and when no
    digit follows, the pattern is looked for in the rest of the name,
    so that [ppt/slides/slide_v2/slide5.xml] sorts as 5 and a name
    without any [slide<digit>] has no key. *)
Theorem key_of_slide_entry {I : Interpreter} (name : str) :
  is_slide_file name = true ->
  search_slide_digits name
  = match take_while is_decimal (skipn 16 name) with
    | [] => search_slide_digits (skipn 16 name)
    | d :: ds => Some (d :: ds)
    end.
Proof.
  unfold is_slide_file, startswith. intros H.
  apply andb_true_iff in H as [H _]. apply has_prefix_split in H.
  change (length slide_prefix) with 16 in H.
  remember (skipn 16 name) as rest eqn:Hrest. clear Hrest. subst name.
  unfold slide_prefix. cbn [app].
  cbn [search_slide_digits has_prefix slide_word N.eqb Pos.eqb andb skipn].
  cbn [take_while]. rewrite (@is_decimal_ascii _ 115%N) by reflexivity.
  cbn [N.leb N.compare Pos.compare Pos.compare_cont andb].
  reflexivity.
Qed.

Lemma key_of_slide_entry_witness :
  search_slide_digits (lit "ppt/slides/slide_v2/slide5.xml")
  = match take_while is_decimal
            (skipn 16 (lit "ppt/slides/slide_v2/slide5.xml")) with
    | [] => search_slide_digits
              (skipn 16 (lit "ppt/slides/slide_v2/slide5.xml"))
    | d :: ds => Some (d :: ds)
    end.
Proof.
  apply (@key_of_slide_entry ascii_interpreter). reflexivity.
Defined.

Example key_of_nested_name :
  sort_key (lit "ppt/slides/slide_v2/slide5.xml") = inr 5%N /\
  heading (lit "ppt/slides/slide_v2/slide5.xml") = lit "--- SLIDE_V2/SLIDE5 ---".
Proof. split; reflexivity. Qed.
